(** * TenorGIFUploader: batched upload scheduler, tag generation and
      input helpers of [main.py] / [cerebras.py]

    The development embeds the decision logic of the scripts: the batch
    arithmetic and the upload loop of [process_tenor_upload], the tag
    post-processing of [setup_gemini] / [setup_cerebras], the helpers
    [extract_urls_from_input], [check_existing_gifs], [sanitize_filename],
    and the clip loop of [video_to_gifs] with its caller
    [process_single_video].  External collaborators (the text-generation
    service, the file dialog, ffprobe / ffmpeg, the directory listing) are
    oracles whose outcome is a parameter. *)

From Stdlib Require Import Strings.String Strings.Ascii DecimalString DecimalNat.
From Stdlib Require Import List Arith Lia Bool NArith ZArith QArith Qround Lqa.
From Equations Require Import Equations.
Import ListNotations.

Set Implicit Arguments.
Local Open Scope nat_scope.

(* ===================================================================== *)
(** ** Ceiling of a true division, as [math.ceil(a / b)] *)
(* ===================================================================== *)

Module PyMath.

(** [math.ceil(a / b)] for non-negative integers [a], [b]: Python's [/]
    is a true division and [math.ceil] rounds it up.  The quotient is
    taken in [Q]; for counts below 2^53 the float quotient has the same
    ceiling. *)
Definition ceil_div (a b : nat) : nat :=
  Z.to_nat (Qceiling (inject_Z (Z.of_nat a) / inject_Z (Z.of_nat b))).

End PyMath.

(* ===================================================================== *)
(** ** Batch arithmetic of [process_tenor_upload] *)
(* ===================================================================== *)

Module Planner.

(** One iteration of the upload loop works on the files
    [output_<b_start>.gif .. output_<b_end>.gif]. *)
Record batch : Type := mkBatch {
  ordinal : nat;   (* batch_num, 0-based *)
  b_start : nat;   (* start_file *)
  b_end   : nat    (* end_file, inclusive *)
}.

Section Plan.
(** [batch_size] is the local constant of [process_tenor_upload]
    (3 in main.py, 2 in cerebras.py); [N] is the global counter. *)
Variable batch_size : nat.
Variable N : nat.

(** [total_batches = math.ceil(N / batch_size)] *)
Definition total_batches : nat := PyMath.ceil_div N batch_size.

(** [start_file = (batch_num * batch_size) + 1] *)
Definition start_file (batch_num : nat) : nat :=
  (batch_num * batch_size) + 1.

(** [end_file = min((batch_num + 1) * batch_size, N)] *)
Definition end_file (batch_num : nat) : nat :=
  Nat.min ((batch_num + 1) * batch_size) N.

(** [files_in_batch = end_file - start_file + 1], a Python integer. *)
Definition files_in_batch (batch_num : nat) : Z :=
  (Z.of_nat (end_file batch_num) - Z.of_nat (start_file batch_num) + 1)%Z.

(** The batch the loop body computes at iteration [batch_num]. *)
Definition batch_of (batch_num : nat) : batch :=
  mkBatch batch_num (start_file batch_num) (end_file batch_num).

(** [for batch_num in range(total_batches)]: the batches in loop order. *)
Definition plan : list batch := map batch_of (seq 0 total_batches).

End Plan.

(** [range(start, end + 1)], the indices [open_files_batch_new] names. *)
Definition indices (b : batch) : list nat :=
  seq (b_start b) (b_end b + 1 - b_start b).

(** Size of a batch as the loop prints it. *)
Definition size (b : batch) : Z :=
  (Z.of_nat (b_end b) - Z.of_nat (b_start b) + 1)%Z.

Definition sizes_sum (p : list batch) : Z :=
  fold_right (fun b acc => (size b + acc)%Z) 0%Z p.

End Planner.

(* ===================================================================== *)
(** ** Python strings *)
(* ===================================================================== *)

Module PyStr.

(** A Python [str] is a sequence of Unicode code points. *)
Definition char : Type := N.
Definition str : Type := list char.

(** Source literals are ASCII; [lit] reads one. *)
Definition lit (s : String.string) : str :=
  map N_of_ascii (list_ascii_of_string s).

Definition eqb (a b : str) : bool :=
  if list_eq_dec N.eq_dec a b then true else false.

(** Truth value of a string or of a list in a condition: non-empty. *)
Definition truthy {A : Type} (xs : list A) : bool :=
  match xs with [] => false | _ :: _ => true end.

(** [x in xs] for a list of strings. *)
Definition mem (x : str) (xs : list str) : bool := existsb (eqb x) xs.

(** [str.isspace] on one code point; the same class is [\s] of [re] on
    [str] patterns and what [str.strip()] removes. *)
Definition isspace (c : char) : bool :=
  (((9 <=? c) && (c <=? 13)) || ((28 <=? c) && (c <=? 32))
   || (c =? 133) || (c =? 160) || (c =? 5760)
   || ((8192 <=? c) && (c <=? 8202))
   || (c =? 8232) || (c =? 8233) || (c =? 8239) || (c =? 8287)
   || (c =? 12288))%N.

Definition in_chars (cs : str) (c : char) : bool := existsb (N.eqb c) cs.

Fixpoint dropwhile (p : char -> bool) (s : str) : str :=
  match s with
  | [] => []
  | c :: s' => if p c then dropwhile p s' else s
  end.

(** Removal of leading and trailing characters satisfying [p]. *)
Definition strip_by (p : char -> bool) (s : str) : str :=
  rev (dropwhile p (rev (dropwhile p s))).

(** [s.strip()] *)
Definition strip (s : str) : str := strip_by isspace s.

(** [s.strip(cs)] *)
Definition strip_chars (cs : str) (s : str) : str := strip_by (in_chars cs) s.

(** [s.replace(c, '')] for a one-character [c]. *)
Definition remove_char (c : char) (s : str) : str :=
  filter (fun x => negb (x =? c)%N) s.

(** [s.startswith(p)] *)
Fixpoint startswith (p s : str) : bool :=
  match p, s with
  | [], _ => true
  | _ :: _, [] => false
  | a :: p', b :: s' => (a =? b)%N && startswith p' s'
  end.

(** [s.endswith(p)] *)
Definition endswith (p s : str) : bool := startswith (rev p) (rev s).

(** [s.split(sep)] for a one-character separator class [p]: every
    separator occurrence ends a field, so empty fields are kept. *)
Fixpoint split_on (p : char -> bool) (s : str) : list str :=
  match s with
  | [] => [[]]
  | c :: s' =>
      if p c then [] :: split_on p s'
      else match split_on p s' with
           | w :: ws => (c :: w) :: ws
           | [] => [[c]]
           end
  end.

(** [re.split(r'[..]+', s)]: a maximal run of separators ends a field;
    [in_run] tells that the previous character was a separator. *)
Fixpoint split_runs_aux (p : char -> bool) (in_run : bool) (s : str)
  : list str :=
  match s with
  | [] => [[]]
  | c :: s' =>
      if p c then
        if in_run then split_runs_aux p true s'
        else [] :: split_runs_aux p true s'
      else match split_runs_aux p false s' with
           | w :: ws => (c :: w) :: ws
           | [] => [[c]]
           end
  end.

Definition split_runs (p : char -> bool) (s : str) : list str :=
  split_runs_aux p false s.

(** [re.sub(r'\s+', ' ', s)]: each maximal run of white space becomes one
    space. *)
Fixpoint collapse_spaces_aux (in_run : bool) (s : str) : str :=
  match s with
  | [] => []
  | c :: s' =>
      if isspace c then
        if in_run then collapse_spaces_aux true s'
        else 32%N :: collapse_spaces_aux true s'
      else c :: collapse_spaces_aux false s'
  end.

Definition collapse_spaces (s : str) : str := collapse_spaces_aux false s.

(** [sep.join(xs)] *)
Fixpoint join (sep : str) (xs : list str) : str :=
  match xs with
  | [] => []
  | [x] => x
  | x :: xs' => x ++ sep ++ join sep xs'
  end.

(** [str(n)] for a non-negative integer. *)
Definition of_nat (n : nat) : str :=
  lit (NilEmpty.string_of_uint (Nat.to_uint n)).

End PyStr.

(* ===================================================================== *)
(** ** Program state, exceptions and collaborators *)
(* ===================================================================== *)

Module Py.
Import PyStr.

(** Calls made to the external collaborators, in program order. *)
Inductive event : Type :=
| EvGenerate (prompt : str)       (* the text-generation request *)
| EvNavigate                      (* navigate_to_tenor() *)
| EvFocus                         (* pyautogui.click(960, 540) in the loop *)
| EvClickUploadArea               (* click_upload_area() *)
| EvSelectFiles (start_file end_file batch_num : nat) (ok : bool)
                                  (* open_files_batch_new(...) and its result *)
| EvClickNext                     (* pyautogui.click(1844, 978) *)
| EvApplyTags (tags : list str)   (* paste_tags_at_coordinates(), reads TAGS *)
| EvAdvance                       (* wait_and_refresh() *)
| EvMkdir (path : str)            (* robust_directory_creation(path) *)
| EvProbe                         (* ffprobe *)
| EvTranscode (index : nat) (ok : bool).
                                  (* ffmpeg for output_<index>.gif *)

(** An instance of a class derived from [Exception].  The interrupt
    signals of the interpreter ([KeyboardInterrupt], [SystemExit]) are
    not [Exception]s and are not part of this model. *)
Record exn : Type := mkExn { exn_message : str }.

(** The module globals [N] and [TAGS], the directories on disk (a path is
    mapped to its listing, [None] when the directory is absent), and the
    calls made so far. *)
Record world : Type := mkWorld {
  glob_N    : nat;
  glob_TAGS : list str;
  fs        : str -> option (list str);
  log       : list event
}.

Inductive outcome (A : Type) : Type :=
| Normal (a : A)
| Raised (e : exn).
Arguments Raised {A} e.

(** A statement sequence: it transforms the world and either completes
    with a value or raises. *)
Definition M (A : Type) : Type := world -> outcome A * world.

Definition ret {A} (a : A) : M A := fun w => (Normal a, w).

Definition bind {A B} (c : M A) (k : A -> M B) : M B :=
  fun w => match c w with
           | (Normal a, w') => k a w'
           | (Raised e, w') => (Raised e, w')
           end.

Definition raise {A} (e : exn) : M A := fun w => (Raised e, w).

(** [try: body  except Exception as e: handler(e)] *)
Definition try_except {A} (body : M A) (handler : exn -> M A) : M A :=
  fun w => match body w with
           | (Normal a, w') => (Normal a, w')
           | (Raised e, w') => handler e w'
           end.

Definition get_N : M nat := fun w => (Normal (glob_N w), w).
Definition set_N (n : nat) : M unit :=
  fun w => (Normal tt, mkWorld n (glob_TAGS w) (fs w) (log w)).
Definition get_TAGS : M (list str) := fun w => (Normal (glob_TAGS w), w).
Definition set_TAGS (t : list str) : M unit :=
  fun w => (Normal tt, mkWorld (glob_N w) t (fs w) (log w)).
Definition listdir (path : str) : M (option (list str)) :=
  fun w => (Normal (fs w path), w).
Definition set_listing (path : str) (files : list str) : M unit :=
  fun w => (Normal tt,
            mkWorld (glob_N w) (glob_TAGS w)
                    (fun p => if eqb p path then Some files else fs w p)
                    (log w)).
Definition emit (e : event) : M unit :=
  fun w => (Normal tt,
            mkWorld (glob_N w) (glob_TAGS w) (fs w) (log w ++ [e])).

(** [for x in xs: body(x)] *)
Fixpoint for_each {A} (xs : list A) (body : A -> M unit) : M unit :=
  match xs with
  | [] => ret tt
  | x :: xs' => bind (body x) (fun _ => for_each xs' body)
  end.

(** Outcome of the text-generation call: the response text, or an
    exception raised anywhere between configuring the client and reading
    the response text. *)
Inductive reply : Type :=
| Responds (text : str)
| Fails (e : exn).

(** Result of [robust_directory_creation]: [True], the fallback path
    (truthy, the requested directory is still absent), or [False]. *)
Inductive mkdir_result : Type := DirReady | DirFallback | DirFailed.

(** What the downloader reports about a video. *)
Record video_info : Type := mkInfo {
  video_title       : str;
  video_description : str;
  video_tags        : list str
}.

(** The collaborators, for the processing of one video. *)
Record env : Type := mkEnv {
  download          : option video_info;  (* None: the download failed *)
  generate_content  : str -> reply;
  select_files      : nat -> bool;        (* by batch_num *)
  make_directory    : mkdir_result;
  probe_duration    : option Q;           (* None: float() raised ValueError *)
  transcode         : nat -> bool         (* by 0-based clip number *)
}.

End Py.

Declare Scope py_scope.
Delimit Scope py_scope with py.
Notation "x <- c1 ;; c2" := (Py.bind c1 (fun x => c2))
  (at level 61, c1 at next level, right associativity) : py_scope.
Notation "c1 ;; c2" := (Py.bind c1 (fun _ => c2))
  (at level 61, right associativity) : py_scope.

(* ===================================================================== *)
(** ** Tag generation: [setup_gemini] (and [setup_cerebras]) *)
(* ===================================================================== *)

Module Tags.
Import PyStr Py.
Local Open Scope py_scope.

(** The list [default_tags] of the success branch (and the list of the
    handler's [else] branch, which is the same literal). *)
Definition default_tags : list str :=
  map lit ["#gif"; "#animation"; "#funny"; "#meme"; "#trending"; "#viral";
           "#entertainment"; "#comedy"; "#dance"; "#viralvideo"; "#fun";
           "#lol"; "#popular"; "#fyp"]%string.

(** The literal the handler extends hint-derived tags with. *)
Definition fallback_extension : list str :=
  map lit ["#gif"; "#animation"; "#funny"; "#meme"; "#trending";
           "#viral"]%string.

(** [context]: title, then the description cut at 500 characters, then
    the first ten hint tags. *)
Definition short_description (video_description : str) : str :=
  if 500 <? length video_description
  then firstn 500 video_description ++ lit "..."
  else video_description.

Definition build_context (video_title video_description : str)
                         (video_tags : list str) : str :=
  let context := lit "Video Title: " ++ video_title in
  let context :=
    if truthy video_description
    then context ++ 10%N :: lit "Video Description: "
                 ++ short_description video_description
    else context in
  if truthy video_tags
  then context ++ 10%N :: lit "Video Tags: "
               ++ join (lit ", ") (firstn 10 video_tags)
  else context.

Definition build_prompt (context : str) : str :=
  lit "
        Based on this YouTube video content:
        " ++ context ++ lit "
        
        Generate 14 short, SEO-friendly hashtags specifically relevant to this video's content. 
        Focus on tags that would be appropriate for GIF clips from this video.
        Include a mix of:
        - Specific tags related to the video content
        - Trending/viral tags
        - Entertainment/comedy tags
        - Popular culture tags
        
        Only output the tags separated by commas, no other text.
        ".

(** The generation request: logged, then the service's reply decides
    between a value and an exception. *)
Definition request (E : env) (prompt : str) : M str :=
  emit (EvGenerate prompt) ;;
  match generate_content E prompt with
  | Responds text => ret text
  | Fails e => raise e
  end.

(** The comprehension over the response: new lines removed, split at
    commas, each field stripped, empty fields dropped. *)
Definition tags_of_response (text_response : str) : list str :=
  map strip
      (filter (fun tag => truthy (strip tag))
              (split_on (N.eqb 44) (remove_char 10%N text_response))).

(** One iteration of [for tag in default_tags]. *)
Definition add_default (tag : str) : M unit :=
  TAGS <- get_TAGS ;;
  if negb (mem tag TAGS) && (length TAGS <? 14)
  then set_TAGS (TAGS ++ [tag])
  else ret tt.

(** The f-string: [#] followed by [tag] without its spaces. *)
Definition hashtag (tag : str) : str := 35%N :: remove_char 32%N tag.

(** The [except Exception] handler. *)
Definition fallback (video_tags : list str) : M bool :=
  (if truthy video_tags then
     set_TAGS (map hashtag (firstn 14 video_tags)) ;;
     TAGS <- get_TAGS ;;
     if length TAGS <? 14 then
       set_TAGS (TAGS ++ fallback_extension) ;;
       TAGS <- get_TAGS ;;
       set_TAGS (firstn 14 TAGS)
     else ret tt
   else set_TAGS default_tags) ;;
  ret false.

Definition setup_gemini (E : env) (video_title video_description : str)
                        (video_tags : list str) : M bool :=
  try_except
    (let context := build_context video_title video_description video_tags in
     let prompt := build_prompt context in
     text <- request E prompt ;;
     let text_response := strip text in
     set_TAGS (tags_of_response text_response) ;;
     TAGS <- get_TAGS ;;
     (if length TAGS <? 14 then for_each default_tags add_default
      else set_TAGS (firstn 14 TAGS)) ;;
     ret true)
    (fun _ => fallback video_tags).

(** The prompt [setup_gemini] sends. *)
Definition prompt_of (video_title video_description : str)
                     (video_tags : list str) : str :=
  build_prompt (build_context video_title video_description video_tags).

End Tags.

(* ===================================================================== *)
(** ** [sanitize_filename] *)
(* ===================================================================== *)

Module Sanitize.
Import PyStr.

(** [invalid_chars]: the characters < > : / \ | ? * and the double quote
    (code point 34). *)
Definition invalid_chars : str := lit "<>:" ++ 34%N :: lit "/\|?*".

Definition default_name : str := lit "Unknown_Video".

(** [for char in invalid_chars: name = name.replace(char, '')] *)
Definition remove_invalid (name : str) : str :=
  fold_left (fun name char => remove_char char name) invalid_chars name.

(** [if len(name) > 150: name = name[:150]] *)
Definition limit_length (name : str) : str :=
  if 150 <? length name then firstn 150 name else name.

(** [name.strip().strip('.').strip('-')] *)
Definition strip_edges (name : str) : str :=
  strip_chars (lit "-") (strip_chars (lit ".") (strip name)).

(** The name before the final emptiness test. *)
Definition sanitized (name : str) : str :=
  strip_edges (limit_length (remove_invalid (collapse_spaces name))).

Definition sanitize_filename (name : str) : str :=
  if negb (truthy name) then default_name
  else
    let name := sanitized name in
    if negb (truthy name) then default_name else name.

End Sanitize.

(* ===================================================================== *)
(** ** [extract_urls_from_input] *)
(* ===================================================================== *)

Module Urls.
Import PyStr.

(** The class [[\s,]]: white space or a comma. *)
Definition is_sep (c : char) : bool := isspace c || (c =? 44)%N.

Fixpoint takewhile (p : char -> bool) (s : str) : str :=
  match s with
  | [] => []
  | c :: s' => if p c then c :: takewhile p s' else []
  end.

(** [strip_prefix p s] is the rest of [s] after the literal [p]. *)
Fixpoint strip_prefix (p s : str) : option str :=
  match p, s with
  | [], _ => Some s
  | _ :: _, [] => None
  | a :: p', b :: s' => if (a =? b)%N then strip_prefix p' s' else None
  end.

(** The tail [://[^\s,]+] of the pattern after the scheme [scheme]: the
    body is the longest run of non-separators and must not be empty. *)
Definition match_tail (scheme r : str) : option (str * str) :=
  match strip_prefix (lit "://") r with
  | None => None
  | Some r' =>
      match takewhile (fun c => negb (is_sep c)) r' with
      | [] => None
      | body =>
          Some (scheme ++ lit "://" ++ body,
                dropwhile (fun c => negb (is_sep c)) r')
      end
  end.

(** A match of [https?://[^\s,]+] at the head of [s]: the matched text and
    what follows it.  The optional [s] is tried first, as the greedy [?]
    does, then the pattern without it. *)
Definition match_url_at (s : str) : option (str * str) :=
  match strip_prefix (lit "http") s with
  | None => None
  | Some r =>
      match r with
      | 115%N :: r' =>
          match match_tail (lit "https") r' with
          | Some m => Some m
          | None => match_tail (lit "http") r
          end
      | _ => match_tail (lit "http") r
      end
  end.

(** Termination of the scan: a match consumes at least one character. *)

Lemma dropwhile_length (p : char -> bool) (s : str) :
  length (dropwhile p s) <= length s.
Proof.
  induction s as [|c s IH]; simpl; [lia|].
  destruct (p c); simpl; lia.
Qed.

Lemma strip_prefix_length (p s r : str) :
  strip_prefix p s = Some r -> length s = length p + length r.
Proof.
  revert s. induction p as [|a p IH]; intros [|b s]; simpl; intros H;
    try discriminate; try (injection H as <-; reflexivity).
  destruct (a =? b)%N; [|discriminate].
  rewrite (IH _ H). reflexivity.
Qed.

Lemma match_tail_shorter (scheme r m rest : str) :
  match_tail scheme r = Some (m, rest) -> length rest < length r.
Proof.
  unfold match_tail. intros H.
  destruct (strip_prefix (lit "://") r) as [r'|] eqn:P; [|discriminate].
  apply strip_prefix_length in P.
  destruct (takewhile _ r'); [discriminate|].
  injection H as _ <-.
  pose proof (dropwhile_length (fun c => negb (is_sep c)) r').
  simpl in P. lia.
Qed.

Lemma match_url_at_shorter (s m rest : str) :
  match_url_at s = Some (m, rest) -> length rest < length s.
Proof.
  unfold match_url_at. intros H.
  destruct (strip_prefix (lit "http") s) as [r|] eqn:P; [|discriminate].
  apply strip_prefix_length in P.
  assert (G : forall sch, match_tail sch r = Some (m, rest) ->
                          length rest < length s).
  { intros sch Hm. apply match_tail_shorter in Hm. lia. }
  destruct r as [|c r']; [eauto|].
  destruct (N.eq_dec c 115) as [->|Hc].
  - destruct (match_tail (lit "https") r') as [p|] eqn:T; [|eauto].
    injection H as ->. apply match_tail_shorter in T. simpl in *. lia.
  - destruct c as [|p]; [eauto|].
    do 7 (destruct p; eauto). congruence.
Qed.

(** [inspect x] keeps the equation between [x] and the case matched. *)
Definition inspect {A : Type} (x : A) : { y : A | x = y } :=
  exist _ x eq_refl.

(** [re.findall(r'https?://[^\s,]+', s)]: the matches from left to right,
    each search resuming where the previous match ended. *)
Equations? findall_urls (s : str) : list str by wf (length s) lt :=
findall_urls [] := [];
findall_urls (c :: s') with inspect (match_url_at (c :: s')) := {
  | exist _ (Some (m, rest)) H => m :: findall_urls rest;
  | exist _ None _ => findall_urls s' }.
Proof.
  apply match_url_at_shorter in H. exact H.
Qed.

(** The test of the fallback loop:
    [url and (url.startswith('http://') or url.startswith('https://'))] *)
Definition looks_like_url (url : str) : bool :=
  truthy url
  && (startswith (lit "http://") url || startswith (lit "https://") url).

Definition extract_urls_from_input (user_input : str) : list str :=
  let found_urls := findall_urls user_input in
  if truthy found_urls then found_urls
  else
    let raw_urls := split_runs is_sep user_input in
    filter looks_like_url (map strip raw_urls).

(** The pattern in words: [http], an optional [s], [://], then at least
    one character, none of them white space or a comma. *)
Definition url_match (u : str) : Prop :=
  exists body,
    body <> [] /\ Forall (fun c => is_sep c = false) body
    /\ (u = lit "http://" ++ body \/ u = lit "https://" ++ body).

(** What may follow a match: the end of the input or a separator. *)
Definition at_boundary (rest : str) : Prop :=
  match rest with
  | [] => True
  | c :: _ => is_sep c = true
  end.

(** [re.findall] in words: [us] lists the matches of the pattern in [s]
    from left to right.  The first match is the leftmost one (no piece
    starting earlier matches the pattern), it is the longest at its place
    (it runs up to a separator or the end), and the search goes on behind
    it; the list ends when no piece of what is left matches. *)
Fixpoint findall_spec (s : str) (us : list str) : Prop :=
  match us with
  | [] => forall pre x post, s = pre ++ x ++ post -> ~ url_match x
  | u :: us' =>
      exists gap rest,
        s = gap ++ u ++ rest
        /\ url_match u
        /\ at_boundary rest
        /\ (forall a b x post,
              gap = a ++ b -> b <> [] -> b ++ u ++ rest = x ++ post ->
              ~ url_match x)
        /\ findall_spec rest us'
  end.

(** [re.split] on runs of a class in words: the fields hold no character
    of the class, and between two fields lies a longest non-empty run of
    such characters. *)
Fixpoint split_spec (p : char -> bool) (s : str) (fields : list str) : Prop :=
  match fields with
  | [] => False
  | t :: ts =>
      Forall (fun c => p c = false) t
      /\ match ts with
         | [] => s = t
         | _ :: _ =>
             exists run rest,
               s = t ++ run ++ rest
               /\ run <> [] /\ Forall (fun c => p c = true) run
               /\ match rest with [] => True | c :: _ => p c = false end
               /\ split_spec p rest ts
         end
  end.

End Urls.

(* ===================================================================== *)
(** ** The upload loop: [process_tenor_upload] *)
(* ===================================================================== *)

Module Session.
Import PyStr Py.
Local Open Scope py_scope.

Section Upload.
(** [batch_size]: 3 in main.py, 2 in cerebras.py. *)
Variable batch_size : nat.
Variable E : env.

Definition navigate_to_tenor : M unit := emit EvNavigate.

Definition click_upload_area : M unit := emit EvClickUploadArea.

(** [open_files_batch_new]: drives the file dialog; every failure inside
    is caught and turned into [False]. *)
Definition open_files_batch_new (start_file end_file batch_num : nat)
  : M bool :=
  let ok := select_files E batch_num in
  emit (EvSelectFiles start_file end_file batch_num ok) ;;
  ret ok.

(** [paste_tags_at_coordinates]: pastes the global [TAGS] into every tag
    field and submits. *)
Definition paste_tags_at_coordinates : M unit :=
  TAGS <- get_TAGS ;;
  emit (EvApplyTags TAGS).

Definition wait_and_refresh : M unit := emit EvAdvance.

(** Body of [for batch_num in range(total_batches)]. *)
Definition batch_body (N total_batches batch_num : nat) : M unit :=
  emit EvFocus ;;
  let start_file := Planner.start_file batch_size batch_num in
  let end_file := Planner.end_file batch_size N batch_num in
  click_upload_area ;;
  ok <- open_files_batch_new start_file end_file batch_num ;;
  if ok then
    emit EvClickNext ;;
    paste_tags_at_coordinates ;;
    if batch_num <? total_batches - 1 then wait_and_refresh
    else ret tt
  else ret tt.

(** The loop alone, for a given artifact count. *)
Definition upload_loop (N : nat) : M unit :=
  let total_batches := Planner.total_batches batch_size N in
  for_each (seq 0 total_batches) (batch_body N total_batches).

Definition process_tenor_upload (video_title video_description : str)
                                (video_tags : list str) : M unit :=
  Tags.setup_gemini E video_title video_description video_tags ;;
  navigate_to_tenor ;;
  N <- get_N ;;
  upload_loop N.

End Upload.

End Session.

(* ===================================================================== *)
(** ** Segmentation and the per-video driver *)
(* ===================================================================== *)

Module Pipeline.
Import PyStr Py.
Local Open Scope py_scope.

(** [f"output_{i}.gif"] *)
Definition artifact_name (i : nat) : str :=
  lit "output_" ++ of_nat i ++ lit ".gif".

(** The filter of [check_existing_gifs]:
    [f.endswith('.gif') and f.startswith('output_')]. *)
Definition is_output_gif (f : str) : bool :=
  endswith (lit ".gif") f && startswith (lit "output_") f.

(** [check_existing_gifs(output_dir)]; a directory that cannot be listed
    is reported like an absent one. *)
Definition check_existing_gifs (output_dir : str) : M (bool * nat) :=
  d <- listdir output_dir ;;
  match d with
  | None => ret (false, 0)
  | Some files =>
      let gif_files := filter is_output_gif files in
      if truthy gif_files then ret (true, length gif_files)
      else ret (false, 0)
  end.

(** [for ... in xs] with a local variable carried through the body. *)
Fixpoint for_fold {A S : Type} (xs : list A) (body : A -> S -> M S) (s : S)
  : M S :=
  match xs with
  | [] => ret s
  | x :: xs' => s' <- body x s ;; for_fold xs' body s'
  end.

(** [C:\Users\harip\ALL TEST], to be joined with the folder name. *)
Definition output_root : str := lit "C:\Users\harip\ALL TEST\".

(** [final_output_dir]: the root joined with the sanitized title (spaces
    removed first) followed by [.gifs]. *)
Definition final_output_dir (video_title : str) : str :=
  let folder_name :=
    Sanitize.sanitize_filename (remove_char 32%N video_title)
    ++ lit ".gifs" in
  output_root ++ folder_name.

Section Video.
Variable batch_size : nat.
Variable E : env.

(** [robust_directory_creation(directory_path)] *)
Definition robust_directory_creation (directory_path : str)
  : M mkdir_result :=
  emit (EvMkdir directory_path) ;;
  match make_directory E with
  | DirReady =>
      d <- listdir directory_path ;;
      (match d with
       | None => set_listing directory_path []
       | Some _ => ret tt
       end) ;;
      ret DirReady
  | r => ret r
  end.

(** One ffmpeg run, for clip [i] (0-based), writing [output_<i+1>.gif]:
    the run fails when the directory is absent, otherwise as ffmpeg
    decides; a successful run leaves its file in the directory. *)
Definition run_ffmpeg (output_dir : str) (i : nat) : M bool :=
  d <- listdir output_dir ;;
  match d with
  | None => emit (EvTranscode (i + 1) false) ;; ret false
  | Some files =>
      let ok := transcode E i in
      emit (EvTranscode (i + 1) ok) ;;
      (if ok
       then if mem (artifact_name (i + 1)) files then ret tt
            else set_listing output_dir (files ++ [artifact_name (i + 1)])
       else ret tt) ;;
      ret ok
  end.

(** [video_to_gifs(video_path, output_dir)] of main.py, with
    [clip_length = 3]; the result is [successful_conversions]. *)
Definition video_to_gifs (output_dir : str) : M nat :=
  r <- robust_directory_creation output_dir ;;
  match r with
  | DirFailed => ret 0
  | _ =>
      emit EvProbe ;;
      match probe_duration E with
      | None => ret 0
      | Some duration =>
          let num_clips := Z.to_nat (Qceiling (duration / inject_Z 3)) in
          set_N num_clips ;;
          for_fold (seq 0 num_clips)
                   (fun i successful_conversions =>
                      ok <- run_ffmpeg output_dir i ;;
                      if ok then ret (successful_conversions + 1)
                      else ret successful_conversions)
                   0
      end
  end.

(** [process_single_video]: [False] when the download failed or the
    upload raised, [True] otherwise. *)
Definition process_single_video : M bool :=
  match download E with
  | None => ret false
  | Some info =>
      let final_output_dir := final_output_dir (video_title info) in
      found <- check_existing_gifs final_output_dir ;;
      let (gifs_exist, existing_gif_count) := (found : bool * nat) in
      (if gifs_exist then set_N existing_gif_count
       else video_to_gifs final_output_dir ;; ret tt) ;;
      try_except
        (Session.process_tenor_upload batch_size E (video_title info)
           (video_description info) (video_tags info) ;;
         ret true)
        (fun _ => ret false)
  end.

End Video.

End Pipeline.

(* ===================================================================== *)
(** ** Views of a run: pure forms of the loops and observations on logs *)
(* ===================================================================== *)

Module Trace.
Import PyStr Py.

(** [w] after the calls [es]. *)
Definition add_log (w : world) (es : list event) : world :=
  mkWorld (glob_N w) (glob_TAGS w) (fs w) (log w ++ es).

Definition with_TAGS (w : world) (t : list str) : world :=
  mkWorld (glob_N w) t (fs w) (log w).

(** The final world of a run. *)
Definition final {A : Type} (r : outcome A * world) : world := snd r.

(** A run that completed normally. *)
Definition completes {A : Type} (r : outcome A * world) : Prop :=
  exists a, fst r = Normal a.

Definition is_select (e : event) : bool :=
  match e with EvSelectFiles _ _ _ _ => true | _ => false end.

Definition is_apply_tags (e : event) : bool :=
  match e with EvApplyTags _ => true | _ => false end.

Definition is_advance (e : event) : bool :=
  match e with EvAdvance => true | _ => false end.

Definition is_segmentation (e : event) : bool :=
  match e with
  | EvMkdir _ | EvProbe | EvTranscode _ _ => true
  | _ => false
  end.

Definition count (p : event -> bool) (es : list event) : nat :=
  length (filter p es).

(** The calls made after the first [select_files] that reported failure
    (none when no selection failed). *)
Fixpoint after_first_failure (es : list event) : list event :=
  match es with
  | [] => []
  | EvSelectFiles _ _ _ false :: es' => es'
  | _ :: es' => after_first_failure es'
  end.

(** The file ranges handed to [open_files_batch_new], in call order. *)
Definition selected_ranges (es : list event) : list Planner.batch :=
  flat_map (fun e => match e with
                     | EvSelectFiles s e b _ => [Planner.mkBatch b s e]
                     | _ => []
                     end) es.

(** One step of the padding loop over [default_tags], on the value of
    [TAGS]. *)
Definition pad_step (TAGS : list str) (tag : str) : list str :=
  if negb (mem tag TAGS) && (length TAGS <? 14) then TAGS ++ [tag]
  else TAGS.

(** The entries of [ds] that are not in [TAGS]. *)
Definition missing_from (TAGS ds : list str) : list str :=
  filter (fun d => negb (mem d TAGS)) ds.

(** [TAGS] after the success branch of [setup_gemini] on response [text]. *)
Definition tags_after_reply (text : str) : list str :=
  let TAGS := Tags.tags_of_response (strip text) in
  if length TAGS <? 14 then fold_left pad_step Tags.default_tags TAGS
  else firstn 14 TAGS.

(** [TAGS] after the handler of [setup_gemini]. *)
Definition tags_after_failure (video_tags : list str) : list str :=
  if truthy video_tags then
    let TAGS := map Tags.hashtag (firstn 14 video_tags) in
    if length TAGS <? 14 then firstn 14 (TAGS ++ Tags.fallback_extension)
    else TAGS
  else Tags.default_tags.

(** The calls of one loop iteration, given the value of [TAGS]. *)
Definition batch_events (batch_size : nat) (E : env) (TAGS : list str)
                        (N total_batches batch_num : nat) : list event :=
  [EvFocus; EvClickUploadArea;
   EvSelectFiles (Planner.start_file batch_size batch_num)
                 (Planner.end_file batch_size N batch_num)
                 batch_num (select_files E batch_num)]
  ++ (if select_files E batch_num
      then [EvClickNext; EvApplyTags TAGS]
           ++ (if batch_num <? total_batches - 1 then [EvAdvance] else [])
      else []).

(** The calls of the whole loop. *)
Definition session_events (batch_size : nat) (E : env) (TAGS : list str)
                          (N : nat) : list event :=
  let total_batches := Planner.total_batches batch_size N in
  flat_map (batch_events batch_size E TAGS N total_batches)
           (seq 0 total_batches).

(** "The session halts at the first failed selection": nothing is applied
    or advanced, and no further selection is attempted, after it. *)
Definition halts_at_first_failure (es : list event) : Prop :=
  Forall (fun e => is_apply_tags e = false /\ is_advance e = false
                   /\ is_select e = false)
         (after_first_failure es).

End Trace.

(* ===================================================================== *)
(** ** Clip windows, the trimmed segmentation of cerebras.py, the text
       typed into the file dialog, and the main program *)
(* ===================================================================== *)

Module Segment.
Import PyStr Py Pipeline.
Local Open Scope py_scope.

(** [num_clips = math.ceil(duration / clip_length)] with the default
    [clip_length = 3]. *)
Definition num_clips (duration : Q) : nat :=
  Z.to_nat (Qceiling (duration / inject_Z 3)).

(** main.py: [start = i * clip_length] *)
Definition clip_start (i : nat) : Z := (Z.of_nat i * 3)%Z.

(** cerebras.py: [start = (i * clip_length) + 5] *)
Definition clip_start_trimmed (i : nat) : Z := (Z.of_nat i * 3 + 5)%Z.

Section Trimmed.
Variable E : env.

(** [video_to_gifs] of cerebras.py: the first and the last five seconds
    are left out, [usable_duration = duration - 10]. *)
Definition video_to_gifs_trimmed (output_dir : str) : M nat :=
  r <- robust_directory_creation E output_dir ;;
  match r with
  | DirFailed => ret 0
  | _ =>
      emit EvProbe ;;
      match probe_duration E with
      | None => ret 0
      | Some duration =>
          let usable_duration := (duration - inject_Z 10)%Q in
          if Qle_bool usable_duration 0 then ret 0
          else
            let num_clips := num_clips usable_duration in
            set_N num_clips ;;
            for_fold (seq 0 num_clips)
                     (fun i successful_conversions =>
                        ok <- run_ffmpeg E output_dir i ;;
                        if ok then ret (successful_conversions + 1)
                        else ret successful_conversions)
                     0
      end
  end.

End Trimmed.

(** The listing of the output directory after the ffmpeg runs for the
    clips [l]: each successful run adds its file unless it is there. *)
Definition listing_after (E : env) (files : list str) (l : list nat)
  : list str :=
  fold_left (fun fl i =>
               if transcode E i
               then if mem (artifact_name (i + 1)) fl then fl
                    else fl ++ [artifact_name (i + 1)]
               else fl) l files.

Definition is_transcode (e : event) : bool :=
  match e with EvTranscode _ _ => true | _ => false end.

End Segment.

Module Dialog.
Import PyStr Pipeline.

(** The f-string of [open_files_batch_new]: the artifact name between
    double quotes (code point 34). *)
Definition quoted_name (i : nat) : str := 34%N :: artifact_name i ++ [34%N].

(** [file_names]: the quoted names of [range(start, end + 1)], joined by
    single spaces. *)
Definition file_names (start end_file : nat) : str :=
  join (lit " ") (map quoted_name (seq start (end_file + 1 - start))).

(** [all_tags_string] of [paste_tags_at_coordinates]: the tags joined by
    single spaces. *)
Definition all_tags_string (TAGS : list str) : str := join (lit " ") TAGS.

End Dialog.

Module Main.
Import PyStr Py.
Local Open Scope py_scope.

Section Program.
Variable batch_size : nat.
(** The collaborators met while processing the video at position [i]. *)
Variable envs : nat -> env.




End Program.

End Main.

(** ** The first script, tenorgif.py *)

Module TenorGif.
Import PyStr.

(** [sanitize_filename] of tenorgif.py: the invalid characters are removed,
    the name is cut at 100 characters, then spaces and dots are stripped
    from its ends.  There is no default name. *)
Definition sanitize_filename (name : str) : str :=
  let name := Sanitize.remove_invalid name in
  let name := if 100 <? length name then firstn 100 name else name in
  strip_chars (lit ".") (strip name).

End TenorGif.

(* ===================================================================== *)
(** * Properties *)
(* ===================================================================== *)

(** ** The ceiling division *)

Module PyMathFacts.
Import PyMath.

Lemma ceil_div_Z (a b : nat) :
  1 <= b ->
  Qceiling (inject_Z (Z.of_nat a) / inject_Z (Z.of_nat b))
  = (- ((- Z.of_nat a) / Z.of_nat b))%Z.
Proof.
  intros Hb. destruct b as [|b]; [lia|].
  unfold Qceiling, Qfloor, Qdiv, Qinv, Qmult, Qopp, inject_Z.
  cbn [Qnum Qden Z.of_nat].
  rewrite Z.mul_1_r. reflexivity.
Qed.

(** The familiar integer form of the ceiling. *)
Lemma ceil_div_spec (a b : nat) :
  1 <= b -> ceil_div a b = (a + b - 1) / b.
Proof.
  intros Hb. unfold ceil_div. rewrite ceil_div_Z by assumption.
  apply Nat2Z.inj. rewrite Nat2Z.inj_div.
  assert (H0 : (0 <= - (- Z.of_nat a / Z.of_nat b))%Z).
  { assert (- Z.of_nat a / Z.of_nat b <= 0)%Z; [|lia].
    apply Z.div_le_upper_bound; lia. }
  rewrite Z2Nat.id by assumption.
  replace (Z.of_nat (a + b - 1)) with (Z.of_nat a + Z.of_nat b - 1)%Z by lia.
  set (x := Z.of_nat a). set (y := Z.of_nat b).
  assert (Hy : (0 < y)%Z) by (unfold y; lia).
  (* both sides are the unique q with (q-1)*y < x <= q*y *)
  pose proof (Z.div_mod (- x) y ltac:(lia)) as E1.
  pose proof (Z.mod_pos_bound (- x) y Hy) as B1.
  pose proof (Z.div_mod (x + y - 1) y ltac:(lia)) as E2.
  pose proof (Z.mod_pos_bound (x + y - 1) y Hy) as B2.
  nia.
Qed.

Lemma ceil_div_0 (b : nat) : ceil_div 0 b = 0.
Proof.
  destruct b as [|b]; [reflexivity|].
  rewrite ceil_div_spec by lia.
  apply Nat.div_small. lia.
Qed.

End PyMathFacts.

(** ** The batch plan *)

Module PlannerFacts.
Import PyMath PyMathFacts Planner.

Lemma total_batches_bounds (bs N : nat) :
  1 <= bs ->
  let B := total_batches bs N in
  N <= B * bs /\ (forall k, k < B -> k * bs < N).
Proof.
  intros Hbs B. unfold B, total_batches.
  rewrite ceil_div_spec by assumption.
  pose proof (Nat.div_mod_eq (N + bs - 1) bs) as E.
  pose proof (Nat.mod_upper_bound (N + bs - 1) bs ltac:(lia)) as R.
  set (q := (N + bs - 1) / bs) in *.
  set (r := (N + bs - 1) mod bs) in *.
  split.
  - nia.
  - intros k Hk. assert (k + 1 <= q) by lia.
    assert ((k + 1) * bs <= q * bs) by (apply Nat.mul_le_mono_r; lia).
    nia.
Qed.

Lemma total_batches_zero (bs : nat) : total_batches bs 0 = 0.
Proof. apply ceil_div_0. Qed.

Lemma total_batches_pos (bs N : nat) :
  1 <= bs -> 1 <= N -> 1 <= total_batches bs N.
Proof.
  intros Hbs HN.
  destruct (total_batches_bounds N Hbs) as [Hup _].
  destruct (total_batches bs N); simpl in *; lia.
Qed.

Lemma start_le_end (bs N k : nat) :
  1 <= bs -> k < total_batches bs N ->
  start_file bs k <= end_file bs N k.
Proof.
  intros Hbs Hk.
  destruct (total_batches_bounds N Hbs) as [_ Hlo].
  specialize (Hlo k Hk).
  unfold start_file, end_file. apply Nat.min_glb; nia.
Qed.

Lemma length_plan (bs N : nat) : length (plan bs N) = total_batches bs N.
Proof. unfold plan. rewrite length_map, length_seq. reflexivity. Qed.

Lemma nth_error_plan (bs N k : nat) :
  k < total_batches bs N ->
  nth_error (plan bs N) k = Some (batch_of bs N k).
Proof.
  intros Hk. unfold plan.
  rewrite nth_error_map, nth_error_seq.
  destruct (Nat.ltb_spec k (total_batches bs N)); [reflexivity | lia].
Qed.

Lemma prefix_cover (bs N m : nat) :
  1 <= bs -> m <= total_batches bs N ->
  concat (map indices (map (batch_of bs N) (seq 0 m)))
  = seq 1 (Nat.min (m * bs) N).
Proof.
  intros Hbs. induction m as [|m IH]; intros Hm.
  - reflexivity.
  - rewrite seq_S, !map_app, concat_app, IH by lia.
    simpl. rewrite app_nil_r.
    assert (Hk : m < total_batches bs N) by lia.
    pose proof (start_le_end N Hbs Hk) as Hse.
    destruct (total_batches_bounds N Hbs) as [_ Hlo].
    specialize (Hlo m Hk).
    unfold indices; cbn [b_start b_end batch_of].
    unfold start_file, end_file in *.
    replace (Nat.min (m * bs) N) with (m * bs) by lia.
    replace (m * bs + 1) with (1 + m * bs) by lia.
    rewrite <- seq_app. f_equal.
    replace ((m + 1) * bs) with (S m * bs) by lia. lia.
Qed.

Lemma plan_cover (bs N : nat) :
  1 <= bs -> concat (map indices (plan bs N)) = seq 1 N.
Proof.
  intros Hbs. unfold plan. rewrite prefix_cover by lia.
  destruct (total_batches_bounds N Hbs) as [Hup _].
  f_equal. lia.
Qed.

Lemma prefix_sizes (bs N m : nat) :
  1 <= bs -> m <= total_batches bs N ->
  sizes_sum (map (batch_of bs N) (seq 0 m)) = Z.of_nat (Nat.min (m * bs) N).
Proof.
  intros Hbs. induction m as [|m IH]; intros Hm.
  - reflexivity.
  - rewrite seq_S, map_app. unfold sizes_sum in *.
    rewrite fold_right_app. simpl.
    assert (Hk : m < total_batches bs N) by lia.
    destruct (total_batches_bounds N Hbs) as [_ Hlo].
    specialize (Hlo m Hk).
    specialize (IH ltac:(lia)).
    revert IH.
    generalize (map (batch_of bs N) (seq 0 m)) as l.
    intros l.
    assert (G : forall z, fold_right (fun b acc => (size b + acc)%Z) z l
                = (fold_right (fun b acc => (size b + acc)%Z) 0 l + z)%Z).
    { induction l as [|x l IHl]; intros z; simpl; [lia|].
      rewrite IHl. lia. }
    intros IH. rewrite G, IH.
    unfold size; cbn [b_start b_end batch_of].
    unfold start_file, end_file.
    replace ((m + 1) * bs) with (S m * bs) by lia. lia.
Qed.

Lemma size_files_in_batch (bs N k : nat) :
  size (batch_of bs N k) = files_in_batch bs N k.
Proof. reflexivity. Qed.

Lemma batch_size_bounds (bs N k : nat) :
  1 <= bs -> k < total_batches bs N ->
  (1 <= size (batch_of bs N k) <= Z.of_nat bs)%Z.
Proof.
  intros Hbs Hk.
  pose proof (start_le_end N Hbs Hk) as Hse.
  unfold size; cbn [b_start b_end batch_of].
  unfold start_file, end_file in *.
  replace ((k + 1) * bs) with (k * bs + bs) in * by lia. lia.
Qed.

(** Every index of [1 .. N] lies in the range of one batch ordinal only. *)
Lemma index_in_unique_batch (bs N i : nat) :
  1 <= bs -> 1 <= i <= N ->
  exists! k, k < total_batches bs N
             /\ start_file bs k <= i <= end_file bs N k.
Proof.
  intros Hbs Hi.
  destruct (total_batches_bounds N Hbs) as [Hup Hlo].
  pose proof (Nat.div_mod_eq (i - 1) bs) as E.
  pose proof (Nat.mod_upper_bound (i - 1) bs ltac:(lia)) as R.
  exists ((i - 1) / bs). unfold unique, start_file, end_file.
  set (q := (i - 1) / bs) in *. set (r := (i - 1) mod bs) in *.
  split; [split|].
  - destruct (Nat.lt_ge_cases q (total_batches bs N)) as [|Hge]; [assumption|].
    assert (total_batches bs N * bs <= q * bs)
      by (apply Nat.mul_le_mono_r; assumption).
    nia.
  - split; [nia|]. apply Nat.min_glb; nia.
  - intros k [Hk [H1 H2]].
    assert (H3 : i <= (k + 1) * bs) by lia.
    destruct (Nat.lt_trichotomy q k) as [Hlt | [Heq | Hgt]];
      [exfalso | assumption | exfalso].
    + assert ((q + 1) * bs <= k * bs) by (apply Nat.mul_le_mono_r; lia). nia.
    + assert ((k + 1) * bs <= q * bs) by (apply Nat.mul_le_mono_r; lia). nia.
Qed.

(** C1. For every [total_artifacts >= 1] and [batch_size >= 1] the batches
    the upload loop works on (ordinal [b] from [0] to
    [ceil(total_artifacts / batch_size) - 1], from [b * batch_size + 1] to
    [min ((b + 1) * batch_size) total_artifacts]) partition
    [1 .. total_artifacts]: listed in loop order their indices are exactly
    [1, 2, ..., total_artifacts] (ascending, no overlap, no gap), every index
    belongs to exactly one batch, each batch starts right after the previous
    one ends, each size [end - start + 1] is between 1 and [batch_size], and
    the sizes add up to [total_artifacts]. *)
Theorem plan_partitions_range (total_artifacts batch_size : nat) :
  1 <= total_artifacts -> 1 <= batch_size ->
  let P := plan batch_size total_artifacts in
  length P = (total_artifacts + batch_size - 1) / batch_size
  /\ (forall b, b < length P ->
        nth_error P b
        = Some (mkBatch b (b * batch_size + 1)
                        (Nat.min ((b + 1) * batch_size) total_artifacts)))
  /\ concat (map indices P) = seq 1 total_artifacts
  /\ (forall i, 1 <= i <= total_artifacts ->
        exists! b, b < length P
                   /\ start_file batch_size b <= i
                      <= end_file batch_size total_artifacts b)
  /\ (forall b x y, nth_error P b = Some x -> nth_error P (S b) = Some y ->
        b_start y = b_end x + 1)
  /\ Forall (fun x => b_start x <= b_end x
                      /\ (1 <= size x <= Z.of_nat batch_size)%Z) P
  /\ sizes_sum P = Z.of_nat total_artifacts.
Proof.
  intros HN Hbs P.
  assert (HL : length P = total_batches batch_size total_artifacts)
    by apply length_plan.
  destruct (total_batches_bounds total_artifacts Hbs) as [Hup Hlo].
  repeat split.
  - rewrite HL. apply ceil_div_spec. assumption.
  - intros b Hb. rewrite HL in Hb. unfold P.
    rewrite nth_error_plan by assumption. reflexivity.
  - apply plan_cover. assumption.
  - intros i Hi. rewrite HL. apply index_in_unique_batch; assumption.
  - intros b x y Hx Hy.
    assert (Hb : S b < total_batches batch_size total_artifacts).
    { rewrite <- HL. apply nth_error_Some. congruence. }
    unfold P in Hx, Hy.
    rewrite nth_error_plan in Hx by lia.
    rewrite nth_error_plan in Hy by lia.
    injection Hx as <-. injection Hy as <-.
    cbn [b_start b_end batch_of]. unfold start_file, end_file.
    specialize (Hlo (S b) Hb).
    replace (b + 1) with (S b) by lia. lia.
  - unfold P, plan. apply Forall_forall. intros x Hx.
    apply in_map_iff in Hx. destruct Hx as [k [<- Hk]].
    apply in_seq in Hk.
    split.
    + apply start_le_end; [assumption | lia].
    + apply batch_size_bounds; [assumption | lia].
  - unfold P, plan. rewrite prefix_sizes by lia. f_equal. lia.
Qed.

(** The plan on [total_artifacts = 7], [batch_size = 3]. *)
Lemma plan_partitions_range_witness :
  1 <= 7 /\ 1 <= 3
  /\ plan 3 7 = [mkBatch 0 1 3; mkBatch 1 4 6; mkBatch 2 7 7]
  /\ concat (map indices (plan 3 7)) = seq 1 7.
Proof.
  split; [lia|]. split; [lia|]. split; [reflexivity|].
  exact (proj1 (proj2 (proj2
           (@plan_partitions_range 7 3 ltac:(lia) ltac:(lia))))).
Defined.

End PlannerFacts.

(** ** Python strings *)

Module PyStrFacts.
Import PyStr.

Lemma eqb_eq (a b : str) : eqb a b = true <-> a = b.
Proof.
  unfold eqb. destruct (list_eq_dec N.eq_dec a b); split; congruence.
Qed.

Lemma mem_In (x : str) (xs : list str) : mem x xs = true <-> In x xs.
Proof.
  unfold mem. rewrite existsb_exists. split.
  - intros [y [Hy E]]. apply eqb_eq in E. subst. assumption.
  - intros H. exists x. split; [assumption | apply eqb_eq; reflexivity].
Qed.

Lemma truthy_nonempty {A : Type} (xs : list A) : truthy xs = true <-> xs <> [].
Proof. destruct xs; simpl; split; congruence. Qed.

Lemma dropwhile_incl (p : char -> bool) (s : str) (c : char) :
  In c (dropwhile p s) -> In c s.
Proof.
  induction s as [|a s IH]; simpl; [tauto|].
  destruct (p a); simpl; tauto.
Qed.

Lemma strip_by_length (p : char -> bool) (s : str) :
  length (strip_by p s) <= length s.
Proof.
  unfold strip_by. rewrite length_rev.
  etransitivity; [apply Urls.dropwhile_length|].
  rewrite length_rev. apply Urls.dropwhile_length.
Qed.

Lemma strip_by_incl (p : char -> bool) (s : str) (c : char) :
  In c (strip_by p s) -> In c s.
Proof.
  unfold strip_by. intros H.
  apply in_rev in H. apply dropwhile_incl in H.
  apply in_rev in H. apply dropwhile_incl in H. assumption.
Qed.

Lemma startswith_app (p s : str) :
  startswith p s = true <-> exists t, s = p ++ t.
Proof.
  revert s. induction p as [|a p IH]; intros s; simpl.
  - split; [exists s; reflexivity | reflexivity].
  - destruct s as [|b s].
    + split; [discriminate | intros [t E]; discriminate].
    + rewrite andb_true_iff, N.eqb_eq, IH. split.
      * intros [-> [t ->]]. exists t. reflexivity.
      * intros [t E]. injection E as -> ->. split; [reflexivity | eauto].
Qed.

End PyStrFacts.

(** ** Tag generation *)

Module TagsFacts.
Import PyStr PyStrFacts Py Tags Trace.

Lemma world_eta (w : world) :
  mkWorld (glob_N w) (glob_TAGS w) (fs w) (log w) = w.
Proof. destruct w; reflexivity. Qed.

(** The padding loop as a fold on the value of [TAGS]. *)
Lemma for_each_add_default (ds : list str) (w : world) :
  for_each ds add_default w
  = (Normal tt, with_TAGS w (fold_left pad_step ds (glob_TAGS w))).
Proof.
  revert w. induction ds as [|d ds IH]; intros w.
  - simpl. unfold ret, with_TAGS. rewrite world_eta. reflexivity.
  - cbn [for_each fold_left]. unfold bind at 1.
    unfold add_default at 1. unfold bind, get_TAGS, pad_step.
    destruct (negb (mem d (glob_TAGS w)) && (length (glob_TAGS w) <? 14)).
    + unfold set_TAGS. rewrite IH. reflexivity.
    + unfold ret. rewrite IH. reflexivity.
Qed.

(** What a call of [setup_gemini] does: one generation request, [N] and
    the disk untouched, [TAGS] replaced, and a normal return of [True] on a
    response, [False] on an exception. *)
Lemma setup_gemini_run (E : env) (title description : str)
                       (hints : list str) (w : world) :
  let p := prompt_of title description hints in
  setup_gemini E title description hints w
  = match generate_content E p with
    | Responds text =>
        (Normal true,
         mkWorld (glob_N w) (tags_after_reply text) (fs w)
                 (log w ++ [EvGenerate p]))
    | Fails _ =>
        (Normal false,
         mkWorld (glob_N w) (tags_after_failure hints) (fs w)
                 (log w ++ [EvGenerate p]))
    end.
Proof.
  intros p. unfold setup_gemini. fold (prompt_of title description hints).
  fold p. unfold try_except, request.
  unfold bind at 1. unfold bind at 1. unfold emit at 1.
  destruct (generate_content E p) as [text|e].
  - unfold ret at 1. unfold bind at 1. unfold set_TAGS at 1.
    unfold bind at 1. unfold get_TAGS at 1. cbn [glob_TAGS].
    unfold tags_after_reply.
    destruct (length (tags_of_response (strip text)) <? 14).
    + unfold bind. rewrite for_each_add_default. reflexivity.
    + reflexivity.
  - unfold raise at 1. unfold fallback, tags_after_failure.
    destruct hints as [|h hs]; [reflexivity|].
    cbn [truthy]. unfold bind at 1. unfold bind at 1. unfold set_TAGS at 1.
    unfold bind at 1. unfold get_TAGS at 1. cbn [glob_TAGS].
    destruct (length (map hashtag (firstn 14 (h :: hs))) <? 14); reflexivity.
Qed.

(** *** Cardinality of the padded tag list *)

Lemma default_tags_NoDup : NoDup default_tags.
Proof.
  replace default_tags with (nodup (list_eq_dec N.eq_dec) default_tags)
    by (vm_compute; reflexivity).
  apply NoDup_nodup.
Qed.

Lemma missing_from_snoc (T ds : list str) (d : str) :
  ~ In d ds -> missing_from (T ++ [d]) ds = missing_from T ds.
Proof.
  intros Hd. unfold missing_from. apply filter_ext_in. intros x Hx.
  f_equal. unfold mem. rewrite existsb_app. simpl.
  rewrite orb_false_r.
  destruct (eqb x d) eqn:Ex; [|apply orb_false_r].
  apply eqb_eq in Ex. subst. contradiction.
Qed.

(** The loop stops adding at 14 entries and reaches 14 whenever enough
    defaults are still missing from [TAGS]. *)
Lemma pad_reaches_14 (ds T : list str) :
  NoDup ds -> length T <= 14 ->
  14 <= length T + length (missing_from T ds) ->
  length (fold_left pad_step ds T) = 14.
Proof.
  revert T. induction ds as [|d ds IH]; intros T Hnd Hle Hsum.
  - simpl in *. lia.
  - inversion Hnd as [|? ? Hd Hnd']; subst.
    cbn [fold_left]. unfold pad_step at 2.
    unfold missing_from in Hsum. cbn [filter] in Hsum.
    fold (missing_from T ds) in Hsum.
    destruct (mem d T) eqn:Hm; cbn [negb andb] in *.
    + apply IH; assumption.
    + destruct (Nat.ltb_spec (length T) 14) as [Hlt|Hge].
      * apply IH; [assumption | rewrite length_app; simpl; lia |].
        rewrite missing_from_snoc by assumption.
        rewrite length_app. simpl in *. lia.
      * apply IH; [assumption | assumption | lia].
Qed.

Lemma missing_defaults (T : list str) :
  14 <= length T + length (missing_from T default_tags).
Proof.
  pose proof (filter_length (fun d => mem d T) default_tags) as HL.
  unfold missing_from. cbv beta in HL.
  assert (HD : length default_tags = 14) by reflexivity.
  assert (length (filter (fun d => mem d T) default_tags) <= length T).
  { apply NoDup_incl_length.
    - apply NoDup_filter, default_tags_NoDup.
    - intros x Hx. apply filter_In in Hx. apply mem_In. tauto. }
  lia.
Qed.

Lemma pad_step_nonempty (ds T : list str) :
  Forall (fun t => t <> []) T -> Forall (fun t => t <> []) ds ->
  Forall (fun t => t <> []) (fold_left pad_step ds T).
Proof.
  revert T. induction ds as [|d ds IH]; intros T HT Hds; [assumption|].
  inversion Hds; subst. cbn [fold_left]. apply IH; [|assumption].
  unfold pad_step. destruct (negb (mem d T) && (length T <? 14)).
  - apply Forall_app. split; [assumption | constructor; [assumption|constructor]].
  - assumption.
Qed.

Lemma default_tags_nonempty : Forall (fun t => t <> []) default_tags.
Proof. repeat constructor; discriminate. Qed.

Lemma tags_of_response_nonempty (text : str) :
  Forall (fun t => t <> []) (tags_of_response text).
Proof.
  unfold tags_of_response. apply Forall_forall. intros t Ht.
  apply in_map_iff in Ht. destruct Ht as [x [<- Hx]].
  apply filter_In in Hx. apply truthy_nonempty. tauto.
Qed.

Lemma Forall_firstn {A : Type} (P : A -> Prop) (n : nat) (l : list A) :
  Forall P l -> Forall P (firstn n l).
Proof.
  intros H. apply Forall_forall. intros x Hx.
  rewrite Forall_forall in H. apply H.
  rewrite <- (firstn_skipn n l). apply in_or_app. left. assumption.
Qed.

(** Whenever the service responds (whatever the text: too few tags, too
    many, none, a wrong delimiter), [TAGS] ends with exactly 14 non-empty
    entries. *)
Lemma tags_after_reply_14 (text : str) :
  length (tags_after_reply text) = 14
  /\ Forall (fun t => t <> []) (tags_after_reply text).
Proof.
  unfold tags_after_reply.
  pose proof (tags_of_response_nonempty (strip text)) as Hne.
  set (T := tags_of_response (strip text)) in *.
  destruct (Nat.ltb_spec (length T) 14) as [Hlt|Hge]; split.
  - apply pad_reaches_14;
      [apply default_tags_NoDup | lia | apply missing_defaults].
  - apply pad_step_nonempty; [assumption | apply default_tags_nonempty].
  - rewrite length_firstn. lia.
  - apply Forall_firstn. assumption.
Qed.

(** The handler's tag list: the hint-derived tags first, then entries of
    the six-element extension; [min 14 (k + 6)] entries for [k >= 1] hints
    and the 14 defaults for no hint. *)
Lemma tags_after_failure_length (hints : list str) :
  length (tags_after_failure hints)
  = match hints with
    | [] => 14
    | _ :: _ => Nat.min 14 (length hints + 6)
    end.
Proof.
  unfold tags_after_failure. destruct hints as [|h hs]; [reflexivity|].
  cbn [truthy]. set (k := length (h :: hs)).
  assert (Hm : length (map hashtag (firstn 14 (h :: hs))) = Nat.min 14 k)
    by (rewrite length_map, length_firstn; reflexivity).
  destruct (Nat.ltb_spec (length (map hashtag (firstn 14 (h :: hs)))) 14).
  - rewrite length_firstn, length_app, Hm.
    change (length fallback_extension) with 6. lia.
  - lia.
Qed.

Lemma tags_after_failure_shape (hints : list str) :
  (hints = [] -> tags_after_failure hints = default_tags)
  /\ (hints <> [] ->
      exists rest,
        tags_after_failure hints = map hashtag (firstn 14 hints) ++ rest
        /\ incl rest default_tags).
Proof.
  split.
  - intros ->. reflexivity.
  - intros Hne. unfold tags_after_failure.
    destruct hints as [|h hs]; [congruence|]. cbn [truthy].
    set (T := map hashtag (firstn 14 (h :: hs))).
    destruct (Nat.ltb_spec (length T) 14) as [Hlt|Hge].
    + exists (firstn (14 - length T) fallback_extension). split.
      * rewrite firstn_app. f_equal. apply firstn_all2. lia.
      * intros x Hx.
        assert (In x fallback_extension).
        { rewrite <- (firstn_skipn (14 - length T) fallback_extension).
          apply in_or_app. left. assumption. }
        unfold fallback_extension, default_tags in *. simpl in *. tauto.
    + exists []. split; [symmetry; apply app_nil_r | intros x []].
Qed.

Lemma tags_after_failure_nonempty (hints : list str) :
  Forall (fun t => t <> []) (tags_after_failure hints).
Proof.
  destruct (tags_after_failure_shape hints) as [H0 H1].
  destruct hints as [|h hs].
  - rewrite H0 by reflexivity. apply default_tags_nonempty.
  - destruct H1 as [rest [-> Hin]]; [discriminate|].
    apply Forall_app. split.
    + apply Forall_forall. intros x Hx. apply in_map_iff in Hx.
      destruct Hx as [y [<- _]]. discriminate.
    + apply Forall_forall. intros x Hx.
      pose proof default_tags_nonempty as Hd.
      rewrite Forall_forall in Hd. apply Hd, Hin, Hx.
Qed.

(** The number of tags [setup_gemini] leaves: 14 on every response, 14 on
    an exception without hint tags, and [min 14 (k + 6)] on an exception
    with [k >= 1] hint tags. *)
Lemma setup_gemini_tag_count (E : env) (title description : str)
                             (hints : list str) (w : world) :
  length (glob_TAGS (final (setup_gemini E title description hints w)))
  = match generate_content E (prompt_of title description hints), hints with
    | Responds _, _ => 14
    | Fails _, [] => 14
    | Fails _, _ :: _ => Nat.min 14 (length hints + 6)
    end.
Proof.
  rewrite setup_gemini_run.
  destruct (generate_content E (prompt_of title description hints));
    unfold final; cbn [snd glob_TAGS].
  - apply tags_after_reply_14.
  - rewrite tags_after_failure_length. destruct hints; reflexivity.
Qed.

(** C3 (the code falls short). The service raises and the video carries
    one hint tag: [setup_gemini] returns [False] and leaves 7 tags, not 14
    (the hint and the six entries of the handler's extension list). *)
Theorem setup_gemini_failure_seven_tags :
  let E := mkEnv None (fun _ => Fails (mkExn (lit "unavailable")))
                 (fun _ => true) DirReady None (fun _ => true) in
  let w := mkWorld 0 [] (fun _ => None) [] in
  let r := setup_gemini E (lit "clip") [] [lit "cat"] w in
  fst r = Normal false
  /\ glob_TAGS (final r)
     = map lit ["#cat"; "#gif"; "#animation"; "#funny"; "#meme";
                "#trending"; "#viral"]%string
  /\ length (glob_TAGS (final r)) = 7.
Proof.
  cbv zeta. rewrite setup_gemini_run. cbn [generate_content].
  repeat split.
Qed.

(** C4. Whatever the text-generation call does, a response or an exception,
    [setup_gemini] completes normally: no exception leaves it.  When the
    call raised, the result is [False] and [TAGS] is the default list if
    there is no hint tag, and otherwise the tags derived from the hints
    followed by default entries; every entry is non-empty. *)
Theorem setup_gemini_never_raises (E : env) (title description : str)
                                  (hints : list str) (w : world) :
  let r := setup_gemini E title description hints w in
  completes r
  /\ Forall (fun t => t <> []) (glob_TAGS (final r))
  /\ (forall e,
        generate_content E (prompt_of title description hints) = Fails e ->
        fst r = Normal false
        /\ (hints = [] -> glob_TAGS (final r) = default_tags)
        /\ (hints <> [] ->
            exists rest,
              glob_TAGS (final r) = map hashtag (firstn 14 hints) ++ rest
              /\ incl rest default_tags)).
Proof.
  cbv zeta. rewrite setup_gemini_run.
  destruct (generate_content E (prompt_of title description hints))
    as [text|e0]; unfold completes, final; cbn [fst snd glob_TAGS].
  - split; [eexists; reflexivity|].
    split; [apply tags_after_reply_14 | discriminate].
  - split; [eexists; reflexivity|].
    split; [apply tags_after_failure_nonempty|].
    intros e _. split; [reflexivity | apply tags_after_failure_shape].
Qed.

End TagsFacts.

(** ** The upload loop *)

Module SessionFacts.
Import PyStr Py Planner PlannerFacts Tags TagsFacts Session Trace.

Lemma add_log_nil (w : world) : add_log w [] = w.
Proof. unfold add_log. rewrite app_nil_r. apply world_eta. Qed.

Lemma add_log_app (w : world) (a b : list event) :
  add_log (add_log w a) b = add_log w (a ++ b).
Proof. unfold add_log. cbn. rewrite app_assoc. reflexivity. Qed.

(** One iteration: the calls of [batch_events], nothing else changes. *)
Lemma batch_body_run (bs : nat) (E : env) (N B b : nat) (w : world) :
  batch_body bs E N B b w
  = (Normal tt, add_log w (batch_events bs E (glob_TAGS w) N B b)).
Proof.
  unfold batch_body, batch_events, click_upload_area, open_files_batch_new,
    paste_tags_at_coordinates, wait_and_refresh, bind, emit, ret, get_TAGS,
    add_log.
  cbn [glob_N glob_TAGS fs log].
  destruct (select_files E b); cbn [glob_N glob_TAGS fs log].
  - destruct (b <? B - 1); cbn [glob_N glob_TAGS fs log];
      repeat rewrite <- app_assoc; reflexivity.
  - repeat rewrite <- app_assoc. reflexivity.
Qed.

(** The loop never stops early: every element of the range is visited. *)
Lemma for_each_batches (bs : nat) (E : env) (N B : nat) (l : list nat)
                       (w : world) :
  for_each l (batch_body bs E N B) w
  = (Normal tt,
     add_log w (flat_map (batch_events bs E (glob_TAGS w) N B) l)).
Proof.
  revert w. induction l as [|b l IH]; intros w.
  - simpl. rewrite add_log_nil. reflexivity.
  - cbn [for_each flat_map]. unfold bind. rewrite batch_body_run.
    rewrite IH, add_log_app. reflexivity.
Qed.

Lemma upload_loop_run (bs : nat) (E : env) (N : nat) (w : world) :
  upload_loop bs E N w
  = (Normal tt, add_log w (session_events bs E (glob_TAGS w) N)).
Proof. unfold upload_loop. apply for_each_batches. Qed.

(** The whole session: tag generation, navigation, then the loop on the
    global [N]. *)
Lemma process_tenor_upload_run (bs : nat) (E : env)
                               (title description : str)
                               (hints : list str) (w : world) :
  exists tags,
    process_tenor_upload bs E title description hints w
    = (Normal tt,
       mkWorld (glob_N w) tags (fs w)
               (log w ++ [EvGenerate (prompt_of title description hints);
                          EvNavigate]
                      ++ session_events bs E tags (glob_N w))).
Proof.
  unfold process_tenor_upload, bind, navigate_to_tenor.
  rewrite setup_gemini_run.
  destruct (generate_content E (prompt_of title description hints));
    eexists; unfold emit, get_N; cbn [glob_N glob_TAGS fs log];
    rewrite upload_loop_run; unfold add_log; cbn [glob_N glob_TAGS fs log];
    rewrite <- !app_assoc; reflexivity.
Qed.

(** *** Counting calls *)

Lemma count_app (p : event -> bool) (a b : list event) :
  count p (a ++ b) = count p a + count p b.
Proof. unfold count. rewrite filter_app, length_app. reflexivity. Qed.

Lemma count_flat_map (p : event -> bool) (f : nat -> list event)
                     (l : list nat) :
  count p (flat_map f l) = list_sum (map (fun b => count p (f b)) l).
Proof.
  unfold list_sum. induction l as [|b l IH]; [reflexivity|].
  cbn [flat_map map fold_right]. rewrite count_app, IH. reflexivity.
Qed.

Lemma list_sum_indicator (q : nat -> bool) (l : list nat) :
  list_sum (map (fun b => if q b then 1 else 0) l) = length (filter q l).
Proof.
  unfold list_sum. induction l as [|b l IH]; [reflexivity|].
  cbn [map fold_right filter]. rewrite IH. destruct (q b); reflexivity.
Qed.

Lemma count_select_batch bs E T N B b :
  count is_select (batch_events bs E T N B b) = 1.
Proof.
  unfold batch_events. destruct (select_files E b); [|reflexivity].
  destruct (b <? B - 1); reflexivity.
Qed.

Lemma count_apply_batch bs E T N B b :
  count is_apply_tags (batch_events bs E T N B b)
  = if select_files E b then 1 else 0.
Proof.
  unfold batch_events. destruct (select_files E b); [|reflexivity].
  destruct (b <? B - 1); reflexivity.
Qed.

Lemma count_advance_batch bs E T N B b :
  count is_advance (batch_events bs E T N B b)
  = if select_files E b && (b <? B - 1) then 1 else 0.
Proof.
  unfold batch_events. destruct (select_files E b); [|reflexivity].
  destruct (b <? B - 1); reflexivity.
Qed.

Lemma list_sum_ones {A : Type} (l : list A) :
  list_sum (map (fun _ => 1) l) = length l.
Proof. induction l; simpl; congruence. Qed.

Lemma count_select_session bs E T N :
  count is_select (session_events bs E T N) = total_batches bs N.
Proof.
  unfold session_events. rewrite count_flat_map.
  rewrite (map_ext _ (fun _ => 1)) by (intros; apply count_select_batch).
  rewrite list_sum_ones. apply length_seq.
Qed.

Lemma count_apply_session bs E T N :
  count is_apply_tags (session_events bs E T N)
  = length (filter (select_files E) (seq 0 (total_batches bs N))).
Proof.
  unfold session_events. rewrite count_flat_map.
  rewrite (map_ext _ (fun b => if select_files E b then 1 else 0))
    by (intros; apply count_apply_batch).
  apply list_sum_indicator.
Qed.

Lemma count_advance_session bs E T N :
  count is_advance (session_events bs E T N)
  = length (filter (select_files E) (seq 0 (total_batches bs N - 1))).
Proof.
  unfold session_events. rewrite count_flat_map.
  set (B := total_batches bs N).
  rewrite (map_ext _ (fun b => if select_files E b && (b <? B - 1)
                               then 1 else 0))
    by (intros; apply count_advance_batch).
  rewrite list_sum_indicator.
  destruct B as [|B']; [reflexivity|].
  replace (S B' - 1) with B' by lia.
  rewrite seq_S, filter_app. cbn [filter Nat.add].
  rewrite Nat.ltb_irrefl, andb_false_r, app_nil_r.
  f_equal. apply filter_ext_in. intros b Hb. apply in_seq in Hb.
  destruct (Nat.ltb_spec b B'); [apply andb_true_r | lia].
Qed.

Lemma filter_all_true {A : Type} (q : A -> bool) (l : list A) :
  (forall x, In x l -> q x = true) -> filter q l = l.
Proof.
  induction l as [|x l IH]; intros H; [reflexivity|].
  cbn [filter]. rewrite (H x) by (left; reflexivity).
  f_equal. apply IH. intros y Hy. apply H. right. assumption.
Qed.

(** The ranges handed to the file dialog are the planned batches. *)
Lemma session_selects_plan bs E T N :
  selected_ranges (session_events bs E T N) = plan bs N.
Proof.
  unfold session_events, plan.
  set (B := total_batches bs N). generalize (seq 0 B) as l.
  induction l as [|b l IH]; [reflexivity|].
  cbn [flat_map map]. unfold selected_ranges in *.
  rewrite flat_map_app, IH. unfold batch_events.
  destruct (select_files E b); [destruct (b <? B - 1)|]; reflexivity.
Qed.

(** *** The claims on the session *)

(** C2 (as stated it fails). Six artifacts in batches of three, the first
    selection fails and the second succeeds: after the failure the session
    still selects the files of the second batch and applies the tags to
    them, so it does not halt at the first failure. *)
Lemma session_continues_after_failure :
  let E := mkEnv None (fun _ => Responds []) (fun b => negb (b =? 0))
                 DirReady None (fun _ => true) in
  let w := mkWorld 6 [] (fun _ => None) [] in
  let r := process_tenor_upload 3 E (lit "clip") [] [] w in
  ~ halts_at_first_failure (log (final r))
  /\ In (EvSelectFiles 4 6 1 true) (after_first_failure (log (final r)))
  /\ In (EvApplyTags (glob_TAGS (final r)))
        (after_first_failure (log (final r))).
Proof.
  cbv zeta.
  assert (H1 : In (EvSelectFiles 4 6 1 true)
                 (after_first_failure
                    (log (final (process_tenor_upload 3
                       (mkEnv None (fun _ => Responds [])
                              (fun b => negb (b =? 0)) DirReady None
                              (fun _ => true))
                       (lit "clip") [] []
                       (mkWorld 6 [] (fun _ => None) [])))))).
  { vm_compute. tauto. }
  split; [|split; [exact H1|]].
  - intros H. unfold halts_at_first_failure in H.
    rewrite Forall_forall in H. apply H in H1.
    destruct H1 as [_ [_ H1]]. discriminate H1.
  - vm_compute. tauto.
Qed.

(** C2 (amended). A failed selection ends the work on its own batch only.
    The session completes normally; its calls are the generation request,
    the navigation, and then, for every planned batch in order, the calls
    of that batch.  A batch whose selection failed contributes the
    selection attempt and neither [apply_tags] nor [advance]; the loop
    goes on with the next batch.  So the selection is attempted once per
    planned batch, the tags are applied once per batch whose selection
    succeeded, and [advance] is called once per such batch other than the
    last planned one. *)
Theorem failed_selection_skips_batch (bs : nat) (E : env)
    (title description : str) (hints : list str) (w : world) :
  1 <= bs ->
  let N := glob_N w in
  let B := total_batches bs N in
  let r := process_tenor_upload bs E title description hints w in
  let tags := glob_TAGS (final r) in
  completes r
  /\ log (final r)
     = log w ++ [EvGenerate (prompt_of title description hints); EvNavigate]
             ++ flat_map (batch_events bs E tags N B) (seq 0 B)
  /\ (forall b, select_files E b = false ->
        batch_events bs E tags N B b
        = [EvFocus; EvClickUploadArea;
           EvSelectFiles (start_file bs b) (end_file bs N b) b false])
  /\ (forall b, select_files E b = true ->
        batch_events bs E tags N B b
        = [EvFocus; EvClickUploadArea;
           EvSelectFiles (start_file bs b) (end_file bs N b) b true;
           EvClickNext; EvApplyTags tags]
          ++ (if b <? B - 1 then [EvAdvance] else []))
  /\ count is_select (flat_map (batch_events bs E tags N B) (seq 0 B)) = B
  /\ count is_apply_tags (flat_map (batch_events bs E tags N B) (seq 0 B))
     = length (filter (select_files E) (seq 0 B))
  /\ count is_advance (flat_map (batch_events bs E tags N B) (seq 0 B))
     = length (filter (select_files E) (seq 0 (B - 1))).
Proof.
  intros _. cbv zeta.
  destruct (process_tenor_upload_run bs E title description hints w)
    as [tags ->].
  unfold completes, final. cbn [fst snd glob_TAGS log].
  split; [eexists; reflexivity|].
  split; [reflexivity|].
  split; [intros b Hb; unfold batch_events; rewrite Hb; reflexivity|].
  split; [intros b Hb; unfold batch_events; rewrite Hb; reflexivity|].
  split; [apply (count_select_session bs E tags (glob_N w))|].
  split; [apply (count_apply_session bs E tags (glob_N w))|].
  apply (count_advance_session bs E tags (glob_N w)).
Qed.

(** Seven artifacts in batches of three, the second selection fails: three
    selections, two tag applications, one [advance]. *)
Lemma failed_selection_skips_batch_witness :
  let E := mkEnv None (fun _ => Responds []) (fun b => negb (b =? 1))
                 DirReady None (fun _ => true) in
  let w := mkWorld 7 [] (fun _ => None) [] in
  let r := process_tenor_upload 3 E (lit "clip") [] [] w in
  1 <= 3
  /\ count is_select (log (final r)) = 3
  /\ count is_apply_tags (log (final r)) = 2
  /\ count is_advance (log (final r)) = 1.
Proof.
  cbv zeta. split; [lia|].
  pose proof (@failed_selection_skips_batch 3
                (mkEnv None (fun _ => Responds []) (fun b => negb (b =? 1))
                       DirReady None (fun _ => true))
                (lit "clip") [] [] (mkWorld 7 [] (fun _ => None) [])
                ltac:(lia)) as H.
  cbv zeta in H. destruct H as [_ [-> _]].
  vm_compute. repeat split.
Defined.

(** C5. With [B >= 1] planned batches and every selection succeeding, the
    session calls [advance] exactly [B - 1] times (and selects and applies
    the tags [B] times), and its last call is the [apply_tags] of the last
    batch: no [advance] follows it. *)
Theorem advance_between_batches_only (bs : nat) (E : env)
    (title description : str) (hints : list str) (w : world) :
  1 <= bs -> 1 <= glob_N w ->
  (forall b, b < total_batches bs (glob_N w) -> select_files E b = true) ->
  let B := total_batches bs (glob_N w) in
  let r := process_tenor_upload bs E title description hints w in
  completes r /\ 1 <= B
  /\ exists calls,
       log (final r) = log w ++ calls
       /\ count is_select calls = B
       /\ count is_apply_tags calls = B
       /\ count is_advance calls = B - 1
       /\ exists before,
            calls = before ++ [EvApplyTags (glob_TAGS (final r))].
Proof.
  intros Hbs HN Hok. cbv zeta.
  pose proof (total_batches_pos Hbs HN) as HB.
  destruct (process_tenor_upload_run bs E title description hints w)
    as [tags ->].
  unfold completes, final. cbn [fst snd glob_TAGS log].
  split; [eexists; reflexivity|]. split; [assumption|].
  eexists. split; [reflexivity|].
  set (B := total_batches bs (glob_N w)) in *.
  assert (Hall : forall m, m <= B ->
                   filter (select_files E) (seq 0 m) = seq 0 m).
  { intros m Hm. apply filter_all_true. intros x Hx.
    apply in_seq in Hx. apply Hok. lia. }
  rewrite !count_app.
  rewrite count_select_session, count_apply_session, count_advance_session.
  fold B. rewrite !Hall, !length_seq by lia.
  repeat split.
  unfold session_events. fold B.
  destruct B as [|B']; [lia|].
  rewrite seq_S, flat_map_app. cbn [flat_map Nat.add].
  unfold batch_events at 2. rewrite Hok by lia.
  replace (S B' - 1) with B' by lia. rewrite Nat.ltb_irrefl.
  exists ([EvGenerate (prompt_of title description hints); EvNavigate]
          ++ flat_map (batch_events bs E tags (glob_N w) (S B')) (seq 0 B')
          ++ [EvFocus; EvClickUploadArea;
              EvSelectFiles (start_file bs B') (end_file bs (glob_N w) B')
                            B' true;
              EvClickNext]).
  rewrite <- !app_assoc. cbn [app]. reflexivity.
Qed.

(** Seven artifacts in batches of three, all selections succeed: three
    batches, two calls of [advance]. *)
Lemma advance_between_batches_only_witness :
  let E := mkEnv None (fun _ => Responds []) (fun _ => true)
                 DirReady None (fun _ => true) in
  let w := mkWorld 7 [] (fun _ => None) [] in
  let r := process_tenor_upload 3 E (lit "clip") [] [] w in
  total_batches 3 7 = 3
  /\ exists calls, log (final r) = log w ++ calls
                   /\ count is_advance calls = 2.
Proof.
  cbv zeta. split; [reflexivity|].
  destruct (@advance_between_batches_only 3
              (mkEnv None (fun _ => Responds []) (fun _ => true)
                     DirReady None (fun _ => true))
              (lit "clip") [] [] (mkWorld 7 [] (fun _ => None) [])
              ltac:(lia) ltac:(simpl; lia) ltac:(reflexivity))
    as [_ [_ [calls [H1 [_ [_ [H2 _]]]]]]].
  exists calls. split; [exact H1 | exact H2].
Defined.

(** C6. With no artifact ([N = 0]) and any [batch_size >= 1] the plan is
    empty, zero batches are computed, and the session makes no
    [select_files], [apply_tags] or [advance] call: its only calls are the
    generation request and the navigation that precede the loop. *)
Theorem no_artifacts_no_batches (bs : nat) (E : env)
    (title description : str) (hints : list str) (w : world) :
  1 <= bs -> glob_N w = 0 ->
  let r := process_tenor_upload bs E title description hints w in
  plan bs 0 = [] /\ total_batches bs 0 = 0
  /\ completes r
  /\ log (final r)
     = log w ++ [EvGenerate (prompt_of title description hints); EvNavigate]
  /\ count is_select (log (final r)) = count is_select (log w)
  /\ count is_apply_tags (log (final r)) = count is_apply_tags (log w)
  /\ count is_advance (log (final r)) = count is_advance (log w).
Proof.
  intros _ HN. cbv zeta.
  destruct (process_tenor_upload_run bs E title description hints w)
    as [tags ->].
  unfold completes, final. cbn [fst snd glob_TAGS log].
  rewrite HN. unfold session_events, plan.
  rewrite total_batches_zero. cbn [seq flat_map map].
  rewrite !count_app.
  repeat split; try reflexivity; try (eexists; reflexivity);
    unfold count; cbn; lia.
Qed.

Lemma no_artifacts_no_batches_witness :
  let E := mkEnv None (fun _ => Responds []) (fun _ => true)
                 DirReady None (fun _ => true) in
  let w := mkWorld 0 [] (fun _ => None) [] in
  let r := process_tenor_upload 3 E (lit "clip") [] [] w in
  1 <= 3 /\ glob_N w = 0 /\ plan 3 0 = []
  /\ count is_select (log (final r)) = 0.
Proof.
  cbv zeta. split; [lia|]. split; [reflexivity|].
  destruct (@no_artifacts_no_batches 3
              (mkEnv None (fun _ => Responds []) (fun _ => true)
                     DirReady None (fun _ => true))
              (lit "clip") [] [] (mkWorld 0 [] (fun _ => None) [])
              ltac:(lia) ltac:(reflexivity))
    as [H1 [_ [_ [_ [H2 _]]]]].
  split; [exact H1 | exact H2].
Defined.

End SessionFacts.

(** ** [sanitize_filename] *)

Module SanitizeFacts.
Import PyStr PyStrFacts Sanitize.

Lemma remove_char_In (c x : char) (s : str) :
  In x (remove_char c s) <-> In x s /\ x <> c.
Proof.
  unfold remove_char. rewrite filter_In, negb_true_iff, N.eqb_neq. tauto.
Qed.

Lemma remove_char_length (c : char) (s : str) :
  length (remove_char c s) <= length s.
Proof. apply filter_length_le. Qed.

(** After the loop over [cs] no character of [cs] is left, and nothing
    else was removed. *)
Lemma remove_all_In (cs s : str) (x : char) :
  In x (fold_left (fun name char => remove_char char name) cs s)
  <-> In x s /\ ~ In x cs.
Proof.
  revert s. induction cs as [|c cs IH]; intros s; cbn [fold_left].
  - simpl. tauto.
  - rewrite IH, remove_char_In. simpl. intuition congruence.
Qed.

Lemma limit_length_bound (s : str) : length (limit_length s) <= 150.
Proof.
  unfold limit_length. destruct (Nat.ltb_spec 150 (length s)).
  - apply firstn_le_length.
  - assumption.
Qed.

Lemma limit_length_incl (s : str) (x : char) :
  In x (limit_length s) -> In x s.
Proof.
  unfold limit_length. destruct (150 <? length s); [|tauto].
  intros H. rewrite <- (firstn_skipn 150 s). apply in_or_app. tauto.
Qed.

Lemma strip_edges_length (s : str) : length (strip_edges s) <= length s.
Proof.
  unfold strip_edges, strip_chars, strip.
  etransitivity; [apply strip_by_length|].
  etransitivity; [apply strip_by_length|]. apply strip_by_length.
Qed.

Lemma strip_edges_incl (s : str) (x : char) :
  In x (strip_edges s) -> In x s.
Proof.
  unfold strip_edges, strip_chars, strip. intros H.
  do 3 apply strip_by_incl in H. assumption.
Qed.

Lemma sanitized_length (name : str) : length (sanitized name) <= 150.
Proof.
  unfold sanitized.
  etransitivity; [apply strip_edges_length | apply limit_length_bound].
Qed.

Lemma sanitized_valid (name : str) (x : char) :
  In x invalid_chars -> ~ In x (sanitized name).
Proof.
  intros Hx H. unfold sanitized in H.
  apply strip_edges_incl, limit_length_incl in H.
  unfold remove_invalid in H. apply remove_all_In in H. tauto.
Qed.

Lemma invalid_chars_codes :
  invalid_chars = [60; 62; 58; 34; 47; 92; 124; 63; 42]%N.
Proof. reflexivity. Qed.

Lemma default_name_valid (x : char) :
  In x invalid_chars -> ~ In x default_name.
Proof.
  intros Hx H.
  assert (G : forallb (fun c => negb (in_chars default_name c)) invalid_chars
              = true) by reflexivity.
  rewrite forallb_forall in G. specialize (G x Hx).
  apply negb_true_iff in G. unfold in_chars in G.
  assert (existsb (N.eqb x) default_name = true); [|congruence].
  apply existsb_exists. exists x. split; [assumption | apply N.eqb_refl].
Qed.

(** C10. For every input string, the empty one included,
    [sanitize_filename] returns a string that is not empty, has at most 150
    characters and contains none of the characters of [invalid_chars]
    (less-than, greater-than, colon, double quote, slash, backslash, bar,
    question mark, star); it
    is [Unknown_Video] when the input is empty or nothing is left of it
    after the sanitization steps, and the sanitized name otherwise. *)
Theorem sanitize_filename_safe (name : str) :
  let r := sanitize_filename name in
  r <> []
  /\ length r <= 150
  /\ (forall c, In c invalid_chars -> ~ In c r)
  /\ (name = [] \/ sanitized name = [] -> r = default_name)
  /\ (name <> [] /\ sanitized name <> [] -> r = sanitized name).
Proof.
  cbv zeta. unfold sanitize_filename.
  destruct name as [|c name]; cbn [truthy negb].
  - repeat split; try discriminate.
    + simpl. lia.
    + apply default_name_valid.
    + intros [H _]. congruence.
  - destruct (sanitized (c :: name)) as [|d s] eqn:Es; cbn [truthy negb].
    + repeat split; try discriminate.
      * simpl. lia.
      * apply default_name_valid.
      * intros [_ H]. congruence.
    + repeat split; try discriminate.
      * rewrite <- Es. apply sanitized_length.
      * intros x Hx. rewrite <- Es. apply sanitized_valid. assumption.
      * intros [H|H]; discriminate.
Qed.

End SanitizeFacts.

(** ** [extract_urls_from_input] *)

Module UrlsFacts.
Import PyStr PyStrFacts Urls.

Lemma strip_prefix_app (p s r : str) :
  strip_prefix p s = Some r <-> s = p ++ r.
Proof.
  revert s. induction p as [|a p IH]; intros s; simpl.
  - split; congruence.
  - destruct s as [|b s]; [split; discriminate|].
    destruct (N.eqb_spec a b) as [->|Hab].
    + rewrite IH. split; congruence.
    + split; [discriminate | congruence].
Qed.

Lemma takewhile_dropwhile (p : char -> bool) (s : str) :
  takewhile p s ++ dropwhile p s = s.
Proof.
  induction s as [|c s IH]; [reflexivity|].
  simpl. destruct (p c); simpl; congruence.
Qed.

Lemma takewhile_all (p : char -> bool) (s : str) :
  Forall (fun c => p c = true) (takewhile p s).
Proof.
  induction s as [|c s IH]; simpl; [constructor|].
  destruct (p c) eqn:Hc; constructor; assumption.
Qed.

(** What follows a maximal run is the end of the input or a character
    outside the class. *)
Lemma dropwhile_head (p : char -> bool) (s : str) :
  match dropwhile p s with
  | [] => True
  | c :: _ => p c = false
  end.
Proof.
  induction s as [|c s IH]; simpl; [exact I|].
  destruct (p c) eqn:Hc; [assumption | assumption].
Qed.

Lemma match_tail_sound (scheme r m rest : str) :
  match_tail scheme r = Some (m, rest) ->
  exists body,
    body <> [] /\ Forall (fun c => is_sep c = false) body
    /\ m = scheme ++ lit "://" ++ body
    /\ r = lit "://" ++ body ++ rest
    /\ match rest with [] => True | c :: _ => is_sep c = true end.
Proof.
  unfold match_tail. intros H.
  destruct (strip_prefix (lit "://") r) as [r'|] eqn:P; [|discriminate].
  apply strip_prefix_app in P.
  pose proof (takewhile_dropwhile (fun c => negb (is_sep c)) r') as TD.
  pose proof (takewhile_all (fun c => negb (is_sep c)) r') as TA.
  pose proof (dropwhile_head (fun c => negb (is_sep c)) r') as DH.
  destruct (takewhile (fun c => negb (is_sep c)) r') as [|b body] eqn:T;
    [discriminate|].
  injection H as <- <-. exists (b :: body).
  split; [discriminate|]. split.
  - eapply Forall_impl; [|exact TA]. intros c Hc.
    apply negb_true_iff. exact Hc.
  - split; [reflexivity|]. split; [rewrite TD; exact P|].
    destruct (dropwhile (fun c => negb (is_sep c)) r'); [exact I|].
    apply negb_false_iff. exact DH.
Qed.

Lemma match_url_at_sound (s m rest : str) :
  match_url_at s = Some (m, rest) ->
  url_match m /\ s = m ++ rest
  /\ match rest with [] => True | c :: _ => is_sep c = true end.
Proof.
  unfold match_url_at. intros H.
  destruct (strip_prefix (lit "http") s) as [r|] eqn:P; [|discriminate].
  apply strip_prefix_app in P.
  assert (Ghttp : match_tail (lit "http") r = Some (m, rest) ->
                  url_match m /\ s = m ++ rest
                  /\ match rest with [] => True | c :: _ => is_sep c = true end).
  { intros T. apply match_tail_sound in T.
    destruct T as [body [Hne [Hall [-> [-> Hrest]]]]].
    split; [exists body; tauto|]. split; [|assumption].
    rewrite P. rewrite <- !app_assoc. reflexivity. }
  destruct r as [|c r']; [auto|].
  destruct (N.eq_dec c 115) as [->|Hc].
  - destruct (match_tail (lit "https") r') as [q|] eqn:T; [|auto].
    injection H as ->. apply match_tail_sound in T.
    destruct T as [body [Hne [Hall [-> [-> Hrest]]]]].
    split; [exists body; tauto|]. split; [|assumption].
    rewrite P. reflexivity.
  - destruct c as [|p]; [auto|].
    do 7 (destruct p; auto). congruence.
Qed.

(** The scan, one step at a time. *)
Lemma findall_urls_cons (c : char) (s : str) :
  findall_urls (c :: s)
  = match match_url_at (c :: s) with
    | Some (m, rest) => m :: findall_urls rest
    | None => findall_urls s
    end.
Proof.
  simp findall_urls.
  destruct (inspect (match_url_at (c :: s))) as [o e].
  transitivity (match o with
                | Some (m, rest) => m :: findall_urls rest
                | None => findall_urls s
                end).
  - destruct o as [[m rest]|]; reflexivity.
  - rewrite e. reflexivity.
Qed.

Lemma findall_urls_nil : findall_urls [] = [].
Proof. simp findall_urls. reflexivity. Qed.

(** Induction on the length of the input, the measure of the scan. *)
Lemma str_length_ind (P : str -> Prop) :
  (forall s, (forall t, length t < length s -> P t) -> P s) ->
  forall s, P s.
Proof.
  intros H s.
  assert (G : forall n t, length t < n -> P t).
  { induction n as [|n IH]; intros t Ht; [lia|].
    apply H. intros t' Ht'. apply IH. lia. }
  apply (G (S (length s))). lia.
Qed.

(** Every string the scan returns matches the pattern. *)
Lemma findall_urls_match (s : str) : Forall url_match (findall_urls s).
Proof.
  induction s as [s IH] using str_length_ind.
  destruct s as [|c s]; [rewrite findall_urls_nil; constructor|].
  rewrite findall_urls_cons.
  destruct (match_url_at (c :: s)) as [[m rest]|] eqn:Hm.
  - pose proof (match_url_at_shorter _ Hm) as Hlt.
    apply match_url_at_sound in Hm. constructor; [tauto|].
    apply IH. assumption.
  - apply IH. simpl. lia.
Qed.

Lemma takewhile_head (p : char -> bool) (c : char) (s : str) :
  p c = true -> takewhile p (c :: s) <> [].
Proof. intros H. simpl. rewrite H. discriminate. Qed.

Lemma match_tail_complete (scheme body post : str) :
  body <> [] -> Forall (fun c => is_sep c = false) body ->
  match_tail scheme (lit "://" ++ body ++ post) <> None.
Proof.
  intros Hne Hall. unfold match_tail.
  assert (P : strip_prefix (lit "://") (lit "://" ++ body ++ post)
              = Some (body ++ post)) by (apply strip_prefix_app; reflexivity).
  rewrite P. destruct body as [|b body]; [congruence|].
  inversion Hall as [|? ? Hb _]; subst.
  pose proof (@takewhile_head (fun c => negb (is_sep c)) b (body ++ post)
                ltac:(cbv beta; rewrite Hb; reflexivity)) as T.
  cbn [app].
  destruct (takewhile (fun c => negb (is_sep c)) (b :: body ++ post));
    [congruence | discriminate].
Qed.

Lemma match_url_at_complete (u post : str) :
  url_match u -> match_url_at (u ++ post) <> None.
Proof.
  intros [body [Hne [Hall [-> | ->]]]]; rewrite <- app_assoc.
  - pose proof (@match_tail_complete (lit "http") body post Hne Hall) as T.
    unfold match_url_at.
    change (lit "http://" ++ body ++ post)
      with (lit "http" ++ lit "://" ++ body ++ post).
    assert (P : strip_prefix (lit "http")
                  (lit "http" ++ lit "://" ++ body ++ post)
                = Some (lit "://" ++ body ++ post))
      by (apply strip_prefix_app; reflexivity).
    rewrite P. exact T.
  - pose proof (@match_tail_complete (lit "https") body post Hne Hall) as T.
    unfold match_url_at.
    change (lit "https://" ++ body ++ post)
      with (lit "http" ++ 115%N :: lit "://" ++ body ++ post).
    assert (P : strip_prefix (lit "http")
                  (lit "http" ++ 115%N :: lit "://" ++ body ++ post)
                = Some (115%N :: lit "://" ++ body ++ post))
      by (apply strip_prefix_app; reflexivity).
    rewrite P.
    destruct (match_tail (lit "https") (lit "://" ++ body ++ post));
      [discriminate | congruence].
Qed.

(** The scan finds something exactly when some piece of the input matches
    the pattern. *)
Lemma findall_urls_complete (pre u post : str) :
  url_match u -> findall_urls (pre ++ u ++ post) <> [].
Proof.
  intros Hu. induction pre as [|c pre IH].
  - cbn [app]. pose proof (match_url_at_complete post Hu) as Hm.
    destruct (u ++ post) as [|c s] eqn:E.
    + destruct Hu as [body [_ [_ [-> | ->]]]]; discriminate E.
    + rewrite findall_urls_cons.
      destruct (match_url_at (c :: s)) as [[m rest]|];
        [discriminate | congruence].
  - cbn [app]. rewrite findall_urls_cons.
    destruct (match_url_at (c :: pre ++ u ++ post)) as [[m rest]|];
      [discriminate | exact IH].
Qed.

Lemma url_match_nonempty (x : str) : url_match x -> x <> [].
Proof. intros [body [_ [_ [-> | ->]]]]; discriminate. Qed.

(** The scan meets the description of [re.findall]. *)
Lemma findall_urls_spec (s : str) : findall_spec s (findall_urls s).
Proof.
  induction s as [s IH] using str_length_ind.
  destruct s as [|c s].
  - rewrite findall_urls_nil. simpl. intros pre x post E Hx.
    apply url_match_nonempty in Hx.
    destruct pre; [destruct x; [congruence | discriminate E] | discriminate E].
  - rewrite findall_urls_cons.
    destruct (match_url_at (c :: s)) as [[m rest]|] eqn:Hm.
    + pose proof (match_url_at_shorter _ Hm) as Hlt.
      apply match_url_at_sound in Hm. destruct Hm as [Hu [E Hb]].
      cbn [findall_spec]. exists [], rest.
      split; [exact E|]. split; [exact Hu|]. split; [exact Hb|].
      split; [|apply IH; exact Hlt].
      intros a b x post Hab Hb'. destruct a; destruct b; try discriminate Hab.
      congruence.
    + assert (Hhere : forall x post, c :: s = x ++ post -> ~ url_match x).
      { intros x post E Hx.
        apply (@match_url_at_complete x post) in Hx.
        rewrite <- E in Hx. congruence. }
      specialize (IH s ltac:(simpl; lia)).
      destruct (findall_urls s) as [|u us]; cbn [findall_spec] in *.
      * intros pre x post E. destruct pre as [|c' pre].
        -- apply (Hhere x post). exact E.
        -- injection E as _ E. apply (IH pre x post). exact E.
      * destruct IH as [gap [rest [E [Hu [Hb [Hgap Hrest]]]]]].
        exists (c :: gap), rest.
        split; [rewrite E; reflexivity|]. split; [exact Hu|].
        split; [exact Hb|]. split; [|exact Hrest].
        intros a b x post Hab Hne Ex. destruct a as [|c' a].
        -- cbn [app] in Hab. subst b. apply (Hhere x post).
           rewrite <- Ex, E. reflexivity.
        -- injection Hab as _ Hab. apply (Hgap a b x post); assumption.
Qed.

Lemma findall_urls_found (s : str) :
  findall_urls s <> [] ->
  exists pre u post, s = pre ++ u ++ post /\ url_match u.
Proof.
  intros Hne. pose proof (findall_urls_spec s) as H.
  destruct (findall_urls s) as [|u us]; [congruence|].
  destruct H as [gap [rest [E [Hu _]]]]. exists gap, u, rest. tauto.
Qed.

(** *** The fallback tokens *)

Lemma split_runs_aux_tokens (p : char -> bool) (b : bool) (s : str) :
  Forall (Forall (fun c => p c = false)) (split_runs_aux p b s).
Proof.
  revert b. induction s as [|c s IH]; intros b; simpl.
  - repeat constructor.
  - destruct (p c) eqn:Hc.
    + destruct b; [apply IH | constructor; [constructor | apply IH]].
    + specialize (IH false).
      destruct (split_runs_aux p false s) as [|w ws].
      * repeat constructor. assumption.
      * inversion IH; subst. constructor; [|assumption].
        constructor; assumption.
Qed.

Lemma split_runs_aux_nonempty (p : char -> bool) (b : bool) (s : str) :
  split_runs_aux p b s <> [].
Proof.
  revert b. induction s as [|c s IH]; intros b; simpl; [discriminate|].
  destruct (p c).
  - destruct b; [apply IH | discriminate].
  - destruct (split_runs_aux p false s); discriminate.
Qed.

(** Inside a run the rest of the run is skipped. *)
Lemma split_runs_aux_in_run (p : char -> bool) (s : str) :
  split_runs_aux p true s = split_runs_aux p false (dropwhile p s).
Proof.
  induction s as [|c s IH]; [reflexivity|].
  simpl. destruct (p c) eqn:Hc; [exact IH|].
  simpl. rewrite Hc. reflexivity.
Qed.

(** The split meets the description of [re.split]. *)
Lemma split_runs_spec (p : char -> bool) (s : str) :
  split_spec p s (split_runs p s).
Proof.
  unfold split_runs.
  induction s as [s IH] using str_length_ind.
  destruct s as [|c s]; [simpl; split; [constructor | reflexivity]|].
  cbn [split_runs_aux]. destruct (p c) eqn:Hc.
  - rewrite split_runs_aux_in_run.
    pose proof (IH (dropwhile p s)
                  ltac:(pose proof (dropwhile_length p s); simpl; lia)) as Hr.
    pose proof (@split_runs_aux_nonempty p false (dropwhile p s)) as Hne.
    destruct (split_runs_aux p false (dropwhile p s)) as [|t ts] eqn:Et;
      [congruence|].
    cbn [split_spec]. split; [constructor|].
    exists (c :: takewhile p s), (dropwhile p s).
    split; [cbn [app]; rewrite takewhile_dropwhile; reflexivity|].
    split; [discriminate|].
    split; [constructor; [exact Hc | apply takewhile_all]|].
    split; [apply dropwhile_head | exact Hr].
  - pose proof (IH s ltac:(simpl; lia)) as Hr.
    pose proof (@split_runs_aux_nonempty p false s) as Hne.
    destruct (split_runs_aux p false s) as [|w ws]; [congruence|].
    cbn [split_spec] in *. destruct Hr as [Hw Hr].
    split; [constructor; assumption|].
    destruct ws as [|w' ws].
    + rewrite Hr. reflexivity.
    + destruct Hr as [run [rest [E Hrest]]].
      exists run, rest. split; [rewrite E; reflexivity | exact Hrest].
Qed.

Lemma dropwhile_none (p : char -> bool) (s : str) :
  Forall (fun c => p c = false) s -> dropwhile p s = s.
Proof.
  intros H. destruct s as [|c s]; [reflexivity|].
  inversion H as [|? ? Hc _]; subst. simpl. rewrite Hc. reflexivity.
Qed.

Lemma strip_by_none (p : char -> bool) (s : str) :
  Forall (fun c => p c = false) s -> strip_by p s = s.
Proof.
  intros H. unfold strip_by. rewrite (@dropwhile_none p s H).
  rewrite dropwhile_none by (apply Forall_rev; assumption).
  apply rev_involutive.
Qed.

(** The tokens hold no white space, so [url.strip()] leaves them as they
    are. *)
Lemma strip_tokens (s : str) :
  map strip (split_runs is_sep s) = split_runs is_sep s.
Proof.
  unfold split_runs.
  pose proof (split_runs_aux_tokens is_sep false s) as H.
  induction H as [|t ts Ht _ IH]; [reflexivity|].
  cbn [map]. rewrite IH. f_equal. apply strip_by_none.
  eapply Forall_impl; [|exact Ht]. intros c Hc.
  unfold is_sep in Hc. apply orb_false_iff in Hc. tauto.
Qed.

Lemma looks_like_url_prefix (u : str) :
  looks_like_url u = true ->
  startswith (lit "http://") u = true \/ startswith (lit "https://") u = true.
Proof.
  unfold looks_like_url. intros H.
  apply andb_true_iff in H. destruct H as [_ H].
  apply orb_true_iff in H. exact H.
Qed.

Lemma url_match_prefix (u : str) :
  url_match u ->
  startswith (lit "http://") u = true \/ startswith (lit "https://") u = true.
Proof.
  intros [body [_ [_ [-> | ->]]]]; [left | right];
    apply startswith_app; eexists; reflexivity.
Qed.

(** C9. [extract_urls_from_input], for every input string.  The strings
    [re.findall] yields are the matches of the pattern [https?://[^\s,]+]
    in the input, from left to right, each the leftmost and longest one
    behind the previous match, and there is one as soon as some piece of
    the input matches the pattern.  When there is at least one, the function
    returns exactly them; otherwise it returns exactly the non-empty fields
    of the split at runs of commas and white space that start with
    [http://] or [https://].  In both cases every returned string starts
    with [http://] or [https://]. *)
Theorem extract_urls_from_input_spec (user_input : str) :
  let urls := extract_urls_from_input user_input in
  let found := findall_urls user_input in
  let tokens := split_runs is_sep user_input in
  Forall url_match found
  /\ findall_spec user_input found
  /\ ((exists pre u post, user_input = pre ++ u ++ post /\ url_match u)
      <-> found <> [])
  /\ split_spec is_sep user_input tokens
  /\ (found <> [] -> urls = found)
  /\ (found = [] ->
      urls = filter (fun t => truthy t
                              && (startswith (lit "http://") t
                                  || startswith (lit "https://") t)) tokens)
  /\ Forall (fun u => startswith (lit "http://") u = true
                      \/ startswith (lit "https://") u = true) urls.
Proof.
  cbv zeta.
  split; [apply findall_urls_match|].
  split; [apply findall_urls_spec|].
  split.
  { split.
    - intros [pre [u [post [-> Hu]]]]. apply findall_urls_complete. exact Hu.
    - apply findall_urls_found. }
  split; [apply split_runs_spec|].
  unfold extract_urls_from_input.
  pose proof (findall_urls_match user_input) as Hall.
  destruct (findall_urls user_input) as [|u us] eqn:F; cbn [truthy].
  - split; [congruence|]. rewrite strip_tokens.
    split; [reflexivity|].
    apply Forall_forall. intros t Ht. apply filter_In in Ht.
    apply looks_like_url_prefix. tauto.
  - split; [reflexivity|]. split; [discriminate|].
    eapply Forall_impl; [|exact Hall]. apply url_match_prefix.
Qed.

End UrlsFacts.

(** ** Segmentation and the per-video driver *)

Module PipelineFacts.
Import PyStr PyStrFacts Py Planner Tags TagsFacts Session Trace SessionFacts
       Pipeline.

Lemma count_segmentation_batch bs E T N B b :
  count is_segmentation (batch_events bs E T N B b) = 0.
Proof.
  unfold batch_events. destruct (select_files E b); [|reflexivity].
  destruct (b <? B - 1); reflexivity.
Qed.

Lemma count_segmentation_session bs E T N :
  count is_segmentation (session_events bs E T N) = 0.
Proof.
  unfold session_events. rewrite count_flat_map.
  rewrite (map_ext _ (fun _ => 0)) by (intros; apply count_segmentation_batch).
  generalize (seq 0 (total_batches bs N)).
  induction l; simpl; assumption || reflexivity.
Qed.

(** [check_existing_gifs] reads the directory and changes nothing. *)
Lemma check_existing_gifs_run (dir : str) (w : world) :
  check_existing_gifs dir w
  = (Normal match fs w dir with
            | None => (false, 0)
            | Some files =>
                match filter is_output_gif files with
                | [] => (false, 0)
                | gifs => (true, length gifs)
                end
            end, w).
Proof.
  unfold check_existing_gifs, bind, listdir, ret.
  destruct (fs w dir) as [files|]; [|reflexivity].
  destruct (filter is_output_gif files); reflexivity.
Qed.

Lemma endswith_app (p x : str) : endswith p (x ++ p) = true.
Proof.
  unfold endswith. rewrite rev_app_distr.
  apply startswith_app. eexists. reflexivity.
Qed.

(** The files the segmentation writes pass the filter of
    [check_existing_gifs]. *)
Lemma artifact_name_is_output_gif (i : nat) :
  is_output_gif (artifact_name i) = true.
Proof.
  unfold is_output_gif, artifact_name. apply andb_true_iff. split.
  - rewrite app_assoc. apply endswith_app.
  - apply startswith_app. eexists. reflexivity.
Qed.

(** A directory holding the artifacts [output_1.gif .. output_n.gif] and
    nothing else counts [n]. *)
Lemma artifact_listing_count (l : list nat) :
  filter is_output_gif (map artifact_name l) = map artifact_name l.
Proof.
  induction l as [|i l IH]; [reflexivity|].
  cbn [map filter]. rewrite artifact_name_is_output_gif, IH. reflexivity.
Qed.

(** The run on a directory that already holds output files. *)
Lemma process_single_video_rerun (bs : nat) (E : env) (info : video_info)
    (w : world) (files : list str) :
  download E = Some info ->
  fs w (final_output_dir (video_title info)) = Some files ->
  filter is_output_gif files <> [] ->
  exists tags,
    process_single_video bs E w
    = (Normal true,
       mkWorld (length (filter is_output_gif files)) tags (fs w)
               (log w
                ++ [EvGenerate (prompt_of (video_title info)
                                          (video_description info)
                                          (video_tags info));
                    EvNavigate]
                ++ session_events bs E tags
                     (length (filter is_output_gif files)))).
Proof.
  intros Hd Hfs Hne.
  unfold process_single_video. rewrite Hd. cbv zeta.
  unfold bind at 1. rewrite check_existing_gifs_run, Hfs.
  destruct (filter is_output_gif files) as [|f fl] eqn:Hf; [congruence|].
  unfold bind at 1. unfold set_N at 1.
  unfold try_except, bind.
  match goal with
  | |- context [process_tenor_upload bs E ?t ?d ?h ?w0] =>
      destruct (process_tenor_upload_run bs E t d h w0) as [tags ->]
  end.
  exists tags. reflexivity.
Qed.

(** C7. A video whose output directory already holds files that pass the
    filter of [check_existing_gifs] (prefix [output_], suffix [.gif]; the
    artifacts [output_<i>.gif] do) is not segmented again: the run makes no
    directory creation, probe or transcode call and leaves the disk as it
    is, sets [N] to the number of such files ([n] when the directory holds
    [output_1.gif .. output_n.gif]), and goes straight to the upload
    session, whose loop runs on that count as [total_artifacts]. *)
Theorem rerun_skips_segmentation (bs : nat) (E : env) (info : video_info)
    (w : world) (files : list str) :
  1 <= bs ->
  download E = Some info ->
  fs w (final_output_dir (video_title info)) = Some files ->
  filter is_output_gif files <> [] ->
  let k := length (filter is_output_gif files) in
  let r := process_single_video bs E w in
  fst r = Normal true
  /\ 1 <= k
  /\ (forall n, files = map artifact_name (seq 1 n) -> k = n)
  /\ glob_N (final r) = k
  /\ (forall p, fs (final r) p = fs w p)
  /\ count is_segmentation (log (final r)) = count is_segmentation (log w)
  /\ log (final r)
     = log w
       ++ [EvGenerate (prompt_of (video_title info) (video_description info)
                                 (video_tags info));
           EvNavigate]
       ++ session_events bs E (glob_TAGS (final r)) k
  /\ selected_ranges (session_events bs E (glob_TAGS (final r)) k)
     = plan bs k.
Proof.
  intros _ Hd Hfs Hne. cbv zeta.
  destruct (process_single_video_rerun bs E w Hd Hfs Hne) as [tags ->].
  unfold final. cbn [fst snd glob_N glob_TAGS fs log].
  split; [reflexivity|].
  split; [destruct (filter is_output_gif files); [congruence | simpl; lia]|].
  split; [intros n ->; rewrite artifact_listing_count, length_map;
          apply length_seq|].
  split; [reflexivity|]. split; [reflexivity|].
  split; [|split; [reflexivity | apply session_selects_plan]].
  rewrite !count_app, count_segmentation_session.
  unfold count; simpl; lia.
Qed.

(** The first run segments a six-second video into two clips; the second
    run finds [output_1.gif] and [output_2.gif] and uploads two artifacts
    without segmenting. *)
Lemma rerun_skips_segmentation_witness :
  let info := mkInfo (lit "clip") [] [] in
  let E := mkEnv (Some info) (fun _ => Responds []) (fun _ => true)
                 DirReady (Some (6 # 1)) (fun _ => true) in
  let w1 := final (process_single_video 3 E
                     (mkWorld 0 [] (fun _ => None) [])) in
  let r := process_single_video 3 E w1 in
  fs w1 (final_output_dir (lit "clip"))
  = Some [artifact_name 1; artifact_name 2]
  /\ fst r = Normal true
  /\ glob_N (final r) = 2
  /\ count is_segmentation (log (final r)) = count is_segmentation (log w1).
Proof.
  cbv zeta.
  assert (Hfs : fs (final (process_single_video 3
                       (mkEnv (Some (mkInfo (lit "clip") [] []))
                              (fun _ => Responds []) (fun _ => true)
                              DirReady (Some (6 # 1)) (fun _ => true))
                       (mkWorld 0 [] (fun _ => None) [])))
                   (final_output_dir (video_title (mkInfo (lit "clip") [] [])))
                = Some [artifact_name 1; artifact_name 2])
    by (vm_compute; reflexivity).
  split; [exact Hfs|].
  destruct (@rerun_skips_segmentation 3
              (mkEnv (Some (mkInfo (lit "clip") [] []))
                     (fun _ => Responds []) (fun _ => true)
                     DirReady (Some (6 # 1)) (fun _ => true))
              (mkInfo (lit "clip") [] [])
              (final (process_single_video 3
                       (mkEnv (Some (mkInfo (lit "clip") [] []))
                              (fun _ => Responds []) (fun _ => true)
                              DirReady (Some (6 # 1)) (fun _ => true))
                       (mkWorld 0 [] (fun _ => None) [])))
              [artifact_name 1; artifact_name 2]
              ltac:(lia) ltac:(reflexivity) Hfs
              ltac:(vm_compute; discriminate))
    as [H1 [_ [_ [H2 [_ [H3 _]]]]]].
  split; [exact H1|]. split; [exact H2 | exact H3].
Defined.

(** *** The clip loop of [video_to_gifs] *)

Lemma run_ffmpeg_run (E : env) (dir : str) (i : nat) (w : world)
                     (files : list str) :
  fs w dir = Some files ->
  exists w',
    run_ffmpeg E dir i w = (Normal (transcode E i), w')
    /\ glob_N w' = glob_N w /\ glob_TAGS w' = glob_TAGS w
    /\ (exists files', fs w' dir = Some files')
    /\ log w' = log w ++ [EvTranscode (i + 1) (transcode E i)].
Proof.
  intros Hfs. unfold run_ffmpeg, bind, listdir. rewrite Hfs.
  unfold emit at 1.
  destruct (transcode E i).
  - destruct (mem (artifact_name (i + 1)) files).
    + eexists. split; [reflexivity|]. cbn. eauto.
    + eexists. split; [reflexivity|]. cbn.
      repeat split; try reflexivity.
      destruct (eqb dir dir) eqn:Ed; [eauto|].
      assert (eqb dir dir = true) by (apply eqb_eq; reflexivity). congruence.
  - eexists. split; [reflexivity|]. cbn. eauto.
Qed.

(** Whatever the clips do, the loop returns the number of successful
    transcodes and leaves [N] as it found it. *)
Lemma clip_loop_run (E : env) (dir : str) (l : list nat) :
  forall (acc : nat) (w : world),
    (exists files, fs w dir = Some files) ->
    exists w',
      for_fold l (fun i successful_conversions =>
                    Py.bind (run_ffmpeg E dir i)
                      (fun ok => if ok then ret (successful_conversions + 1)
                                 else ret successful_conversions))
               acc w
      = (Normal (acc + length (filter (transcode E) l)), w')
      /\ glob_N w' = glob_N w /\ glob_TAGS w' = glob_TAGS w
      /\ (exists files', fs w' dir = Some files')
      /\ log w'
         = log w ++ map (fun i => EvTranscode (i + 1) (transcode E i)) l.
Proof.
  induction l as [|i l IH]; intros acc w [files Hfs].
  - exists w. cbn. rewrite Nat.add_0_r, app_nil_r. eauto 6.
  - destruct (run_ffmpeg_run E dir i w Hfs)
      as [w1 [Hr [HN [HT [Hf HL]]]]].
    cbn [for_fold]. unfold bind at 1. unfold bind at 1. rewrite Hr.
    cbn [filter map].
    destruct (transcode E i) eqn:Hok; unfold ret at 1.
    + destruct (IH (acc + 1) w1 Hf) as [w2 [Hr2 [HN2 [HT2 [Hf2 HL2]]]]].
      exists w2. rewrite Hr2. cbn [length].
      repeat split; try congruence.
      * f_equal. f_equal. lia.
      * rewrite HL2, HL, <- app_assoc. reflexivity.
    + destruct (IH acc w1 Hf) as [w2 [Hr2 [HN2 [HT2 [Hf2 HL2]]]]].
      exists w2. rewrite Hr2.
      repeat split; try congruence.
      rewrite HL2, HL, <- app_assoc. reflexivity.
Qed.

(** [video_to_gifs] on a readable video: the result is the number of
    clips whose transcode succeeded, while the global [N] becomes the
    number of clips attempted. *)
Lemma video_to_gifs_counts (E : env) (dir : str) (w : world) (d : Q) :
  make_directory E = DirReady -> probe_duration E = Some d ->
  let num_clips := Z.to_nat (Qceiling (d / inject_Z 3)) in
  exists w',
    video_to_gifs E dir w
    = (Normal (length (filter (transcode E) (seq 0 num_clips))), w')
    /\ glob_N w' = num_clips.
Proof.
  intros Hm Hp. cbv zeta.
  unfold video_to_gifs, robust_directory_creation. rewrite Hm, Hp.
  unfold bind at 1. unfold bind at 1. unfold emit at 1.
  unfold bind at 1. unfold listdir at 1. cbn [fs].
  set (n := Z.to_nat (Qceiling (d / inject_Z 3))).
  destruct (fs w dir) as [files|] eqn:Hfs.
  - unfold bind at 1. unfold ret at 1. unfold ret at 1.
    unfold bind at 1. unfold emit at 1.
    unfold bind at 1. unfold set_N at 1.
    match goal with
    | |- context [for_fold ?l ?f 0 ?w0] =>
        destruct (@clip_loop_run E dir l 0 w0
                    ltac:(exists files; exact Hfs))
          as [w' [Hr [HN _]]]
    end.
    exists w'. split; [exact Hr | exact HN].
  - unfold bind at 1. unfold set_listing at 1. unfold ret at 1.
    unfold bind at 1. unfold emit at 1.
    unfold bind at 1. unfold set_N at 1.
    match goal with
    | |- context [for_fold ?l ?f 0 ?w0] =>
        destruct (@clip_loop_run E dir l 0 w0) as [w' [Hr [HN _]]]
    end.
    + exists []. cbn.
      destruct (eqb dir dir) eqn:Ed; [reflexivity|].
      assert (eqb dir dir = true) by (apply eqb_eq; reflexivity). congruence.
    + exists w'. split; [exact Hr | exact HN].
Qed.

(** C8 (the code falls short). A six-second video gives two clips; the
    transcode of the first fails and that of the second succeeds.
    [video_to_gifs] returns 1 and the directory holds [output_2.gif] only,
    yet the global [N] is 2: the upload session plans on two artifacts and
    asks the file dialog for [output_1.gif] and [output_2.gif]. *)
Theorem failed_clip_counted_as_artifact :
  let info := mkInfo (lit "clip") [] [] in
  let E := mkEnv (Some info) (fun _ => Responds []) (fun _ => true)
                 DirReady (Some (6 # 1)) (fun i => negb (i =? 0)) in
  let w := mkWorld 0 [] (fun _ => None) [] in
  let dir := final_output_dir (lit "clip") in
  let seg := video_to_gifs E dir w in
  let r := process_single_video 3 E w in
  fst seg = Normal 1
  /\ fs (final seg) dir = Some [lit "output_2.gif"]
  /\ glob_N (final seg) = 2
  /\ fst r = Normal true
  /\ glob_N (final r) = 2
  /\ selected_ranges (log (final r)) = [mkBatch 0 1 2].
Proof.
  cbv zeta. repeat split; vm_compute; reflexivity.
Qed.

End PipelineFacts.

(** ** Further properties: full batches and the remainder *)

Module PlannerMore.
Import PyMath PyMathFacts Planner PlannerFacts.

(** X23. The loop prints "N // batch_size full batches + N % batch_size
    remainder": the batch count is the number of full batches plus one when
    there is a remainder, each of the first [N / batch_size] batches holds
    exactly [batch_size] files, and the remainder batch, when there is one,
    is the last and holds [N mod batch_size] files. *)
Theorem full_batches_then_remainder (batch_size N : nat) :
  1 <= batch_size ->
  total_batches batch_size N
  = N / batch_size + (if N mod batch_size =? 0 then 0 else 1)
  /\ (forall b, b < N / batch_size ->
        files_in_batch batch_size N b = Z.of_nat batch_size)
  /\ (N mod batch_size <> 0 ->
        files_in_batch batch_size N (N / batch_size)
        = Z.of_nat (N mod batch_size)).
Proof.
  intros Hbs.
  pose proof (Nat.div_mod_eq N batch_size) as E.
  pose proof (Nat.mod_upper_bound N batch_size ltac:(lia)) as R.
  set (q := N / batch_size) in *. set (r := N mod batch_size) in *.
  split; [|split].
  - unfold total_batches. rewrite ceil_div_spec by assumption.
    destruct (Nat.eqb_spec r 0) as [Hr|Hr].
    + symmetry. apply (Nat.div_unique _ _ _ (batch_size - 1)); lia.
    + symmetry. apply (Nat.div_unique _ _ _ (r - 1)); lia.
  - intros b Hb. unfold files_in_batch, start_file, end_file.
    assert ((b + 1) * batch_size <= q * batch_size)
      by (apply Nat.mul_le_mono_r; lia).
    replace (Nat.min ((b + 1) * batch_size) N) with ((b + 1) * batch_size)
      by lia.
    lia.
  - intros Hr. unfold files_in_batch, start_file, end_file.
    replace (Nat.min ((q + 1) * batch_size) N) with N by lia.
    lia.
Qed.

Lemma full_batches_then_remainder_witness :
  1 <= 3
  /\ total_batches 3 7 = 7 / 3 + 1
  /\ files_in_batch 3 7 2 = 1%Z.
Proof.
  split; [lia|].
  destruct (@full_batches_then_remainder 3 7 ltac:(lia)) as [H1 [_ H3]].
  split; [exact H1 | exact (H3 ltac:(discriminate))].
Defined.

End PlannerMore.

(** ** Further properties: segmentation *)

Module SegmentFacts.
Import PyStr PyStrFacts Py Tags TagsFacts Trace SessionFacts Pipeline
       PipelineFacts Segment.

(** *** Artifact names *)




(** *** One ffmpeg run and the clip loop *)

Lemma eqb_refl (s : str) : eqb s s = true.
Proof. apply eqb_eq. reflexivity. Qed.

Lemma eqb_neq (a b : str) : a <> b -> eqb a b = false.
Proof.
  intros H. destruct (eqb a b) eqn:E; [|reflexivity].
  apply eqb_eq in E. contradiction.
Qed.

Lemma run_ffmpeg_exact (E : env) (dir : str) (i : nat) (w : world)
                       (files : list str) :
  fs w dir = Some files ->
  exists w',
    run_ffmpeg E dir i w = (Normal (transcode E i), w')
    /\ glob_N w' = glob_N w /\ glob_TAGS w' = glob_TAGS w
    /\ fs w' dir = Some (listing_after E files [i])
    /\ (forall p, p <> dir -> fs w' p = fs w p)
    /\ log w' = log w ++ [EvTranscode (i + 1) (transcode E i)].
Proof.
  intros Hfs. unfold run_ffmpeg, bind, listdir, listing_after. rewrite Hfs.
  unfold emit at 1. cbn [fold_left].
  destruct (transcode E i).
  - destruct (mem (artifact_name (i + 1)) files).
    + eexists. split; [reflexivity|]. cbn. auto.
    + eexists. split; [reflexivity|]. cbn. rewrite eqb_refl.
      repeat split. intros p Hp. rewrite eqb_neq by assumption. reflexivity.
  - eexists. split; [reflexivity|]. cbn. auto.
Qed.

Lemma clip_loop_exact (E : env) (dir : str) (l : list nat) :
  forall (acc : nat) (w : world) (files : list str),
    fs w dir = Some files ->
    exists w',
      for_fold l (fun i successful_conversions =>
                    Py.bind (run_ffmpeg E dir i)
                      (fun ok => if ok then ret (successful_conversions + 1)
                                 else ret successful_conversions))
               acc w
      = (Normal (acc + length (filter (transcode E) l)), w')
      /\ glob_N w' = glob_N w /\ glob_TAGS w' = glob_TAGS w
      /\ fs w' dir = Some (listing_after E files l)
      /\ (forall p, p <> dir -> fs w' p = fs w p)
      /\ log w'
         = log w ++ map (fun i => EvTranscode (i + 1) (transcode E i)) l.
Proof.
  induction l as [|i l IH]; intros acc w files Hfs.
  - exists w. cbn. rewrite Nat.add_0_r, app_nil_r. auto 7.
  - destruct (run_ffmpeg_exact E dir i w Hfs)
      as [w1 [Hr [HN [HT [Hf [Ho HL]]]]]].
    cbn [for_fold]. unfold bind at 1. unfold bind at 1. rewrite Hr.
    cbn [filter map].
    assert (Hstep : listing_after E files (i :: l)
                    = listing_after E (listing_after E files [i]) l)
      by reflexivity.
    destruct (transcode E i) eqn:Hok; unfold ret at 1.
    + destruct (IH (acc + 1) w1 _ Hf) as [w2 [Hr2 [HN2 [HT2 [Hf2 [Ho2 HL2]]]]]].
      exists w2. rewrite Hr2. cbn [length].
      repeat split; try congruence.
      * f_equal. f_equal. lia.
      * intros p Hp. rewrite Ho2, Ho by assumption. reflexivity.
      * rewrite HL2, HL, <- app_assoc. reflexivity.
    + destruct (IH acc w1 _ Hf) as [w2 [Hr2 [HN2 [HT2 [Hf2 [Ho2 HL2]]]]]].
      exists w2. rewrite Hr2.
      repeat split; try congruence.
      * intros p Hp. rewrite Ho2, Ho by assumption. reflexivity.
      * rewrite HL2, HL, <- app_assoc. reflexivity.
Qed.



(** *** [video_to_gifs] of main.py *)











(** *** Clip windows *)

Lemma num_clips_bounds (d : Q) :
  (0 < d)%Q ->
  1 <= num_clips d
  /\ (inject_Z (Z.of_nat (num_clips d) - 1) * 3 < d)%Q
  /\ (d <= inject_Z (Z.of_nat (num_clips d)) * 3)%Q.
Proof.
  intros Hd. unfold num_clips.
  pose proof (Qle_ceiling (d / inject_Z 3)) as Hup.
  pose proof (Qceiling_lt (d / inject_Z 3)) as Hlo.
  assert (He : (d == (d / inject_Z 3) * 3)%Q)
    by (change (inject_Z 3) with 3%Q; field).
  set (e := (d / inject_Z 3)%Q) in *.
  set (c := Qceiling e) in *.
  assert (Hc : (1 <= c)%Z).
  { assert (H : (0 < inject_Z c)%Q) by lra.
    assert (0 < c)%Z by (rewrite Zlt_Qlt; exact H). lia. }
  rewrite Z2Nat.id by lia.
  split; [lia|]. split; lra.
Qed.

Lemma inject_Z_of_nat_le (i n : nat) :
  i < n -> (inject_Z (Z.of_nat i) <= inject_Z (Z.of_nat n - 1))%Q.
Proof. intros H. rewrite <- Zle_Qle. lia. Qed.

(** X5. main.py, a video of positive length [d]: there is at least one
    clip, every clip starts inside the video (at [3 i < d] seconds), and
    the three-second windows reach the end of the video ([d <= 3 n]), so no
    part of the video is left without a clip. *)
Theorem clips_cover_the_video (d : Q) :
  (0 < d)%Q ->
  let n := num_clips d in
  1 <= n
  /\ (forall i, i < n -> (inject_Z (clip_start i) < d)%Q)
  /\ (d <= inject_Z (clip_start n))%Q.
Proof.
  intros Hd. cbv zeta.
  destruct (num_clips_bounds Hd) as [H1 [H2 H3]].
  split; [exact H1|]. unfold clip_start. split.
  - intros i Hi. pose proof (inject_Z_of_nat_le Hi) as Hle.
    rewrite inject_Z_mult. change (inject_Z 3) with 3%Q. lra.
  - rewrite inject_Z_mult. change (inject_Z 3) with 3%Q. exact H3.
Qed.

Lemma clips_cover_the_video_witness :
  (0 < 7 # 1)%Q /\ num_clips (7 # 1) = 3
  /\ (7 # 1 <= inject_Z (clip_start 3))%Q.
Proof.
  split; [reflexivity|]. split; [reflexivity|].
  exact (proj2 (proj2 (@clips_cover_the_video (7 # 1) eq_refl))).
Defined.

(** *** [video_to_gifs] of cerebras.py *)

(** X6. cerebras.py, a video of at most ten seconds: nothing is usable
    after leaving out five seconds at each end, so [video_to_gifs] returns
    0 without running ffmpeg and leaves the global [N] at its old value. *)
Theorem trimmed_video_too_short (E : env) (dir : str) (w : world) (d : Q) :
  probe_duration E = Some d -> (d <= 10)%Q ->
  let r := video_to_gifs_trimmed E dir w in
  fst r = Normal 0
  /\ glob_N (final r) = glob_N w
  /\ count is_transcode (log (final r)) = count is_transcode (log w).
Proof.
  intros Hp Hd. cbv zeta.
  assert (Hb : Qle_bool (d - inject_Z 10) 0 = true).
  { apply Qle_bool_iff. change (inject_Z 10) with 10%Q. lra. }
  destruct (video_to_gifs_trimmed E dir w) as [o w'] eqn:Hrun.
  unfold final. cbn [fst snd].
  unfold video_to_gifs_trimmed, robust_directory_creation, bind, emit,
    listdir, ret, set_listing in Hrun.
  rewrite Hp, Hb in Hrun.
  destruct (make_directory E); cbn in Hrun.
  - destruct (fs w dir); cbn in Hrun; injection Hrun as <- <-;
      cbn [glob_N glob_TAGS fs log];
      rewrite !count_app; repeat split; unfold count; simpl; lia.
  - injection Hrun as <- <-. cbn [glob_N glob_TAGS fs log].
    rewrite !count_app; repeat split; unfold count; simpl; lia.
  - injection Hrun as <- <-. cbn [glob_N glob_TAGS fs log].
    rewrite ?count_app; repeat split; unfold count; simpl; lia.
Qed.

Lemma trimmed_video_too_short_witness :
  let E := mkEnv None (fun _ => Responds []) (fun _ => true) DirReady
                 (Some (10 # 1)) (fun _ => true) in
  let r := video_to_gifs_trimmed E (lit "out")
             (mkWorld 4 [] (fun _ => None) []) in
  fst r = Normal 0 /\ glob_N (final r) = 4.
Proof.
  cbv zeta.
  destruct (@trimmed_video_too_short
              (mkEnv None (fun _ => Responds []) (fun _ => true) DirReady
                     (Some (10 # 1)) (fun _ => true))
              (lit "out") (mkWorld 4 [] (fun _ => None) []) (10 # 1)
              eq_refl ltac:(discriminate)) as [H1 [H2 _]].
  split; [exact H1 | exact H2].
Defined.

(** X7. cerebras.py, a video longer than ten seconds in a usable directory:
    [N] becomes [ceil((d - 10) / 3) >= 1], the result is the number of
    successful runs, and every clip starts at or after second 5 and before
    the last five seconds ([5 + 3 i < d - 5]); the windows reach second
    [d - 5]. *)
Theorem trimmed_clips_skip_both_ends (E : env) (dir : str) (w : world)
                                     (d : Q) :
  make_directory E = DirReady -> probe_duration E = Some d -> (10 < d)%Q ->
  let n := num_clips (d - inject_Z 10) in
  let r := video_to_gifs_trimmed E dir w in
  1 <= n
  /\ fst r = Normal (length (filter (transcode E) (seq 0 n)))
  /\ glob_N (final r) = n
  /\ (forall i, i < n ->
        (5 <= clip_start_trimmed i)%Z
        /\ (inject_Z (clip_start_trimmed i) < d - 5)%Q)
  /\ (d - 5 <= inject_Z (clip_start_trimmed n))%Q.
Proof.
  intros Hm Hp Hd. cbv zeta.
  assert (Hu : (0 < d - inject_Z 10)%Q)
    by (change (inject_Z 10) with 10%Q; lra).
  destruct (num_clips_bounds Hu) as [H1 [H2 H3]].
  assert (Hb : Qle_bool (d - inject_Z 10) 0 = false).
  { destruct (Qle_bool (d - inject_Z 10) 0) eqn:B; [|reflexivity].
    apply Qle_bool_iff in B. change (inject_Z 10) with 10%Q in B. lra. }
  split; [exact H1|].
  assert (Hrun : exists w',
             video_to_gifs_trimmed E dir w
             = (Normal (length (filter (transcode E)
                                  (seq 0 (num_clips (d - inject_Z 10))))), w')
             /\ glob_N w' = num_clips (d - inject_Z 10)).
  { unfold video_to_gifs_trimmed, robust_directory_creation.
    rewrite Hm, Hp, Hb.
    unfold bind at 1. unfold bind at 1. unfold emit at 1.
    unfold bind at 1. unfold listdir at 1. cbn [fs].
    destruct (fs w dir) as [files|] eqn:Hfs.
    - unfold bind at 1. unfold ret at 1. unfold ret at 1.
      unfold bind at 1. unfold emit at 1.
      unfold bind at 1. unfold set_N at 1.
      match goal with
      | |- context [for_fold ?l ?f 0 ?w0] =>
          destruct (@clip_loop_exact E dir l 0 w0 files Hfs)
            as [w' [Hr [HN _]]]
      end.
      exists w'. split; [exact Hr | exact HN].
    - unfold bind at 1. unfold set_listing at 1. unfold ret at 1.
      unfold bind at 1. unfold emit at 1.
      unfold bind at 1. unfold set_N at 1.
      match goal with
      | |- context [for_fold ?l ?f 0 ?w0] =>
          destruct (@clip_loop_exact E dir l 0 w0 [])
            as [w' [Hr [HN _]]]
      end.
      { cbn. rewrite eqb_refl. reflexivity. }
      exists w'. split; [exact Hr | exact HN]. }
  destruct Hrun as [w' [-> HN]]. unfold final. cbn [fst snd].
  split; [reflexivity|]. split; [exact HN|].
  unfold clip_start_trimmed. split.
  - intros i Hi. pose proof (inject_Z_of_nat_le Hi) as Hle.
    split; [lia|].
    rewrite inject_Z_plus, inject_Z_mult.
    change (inject_Z 3) with 3%Q. change (inject_Z 5) with 5%Q.
    change (inject_Z 10) with 10%Q in *. lra.
  - rewrite inject_Z_plus, inject_Z_mult.
    change (inject_Z 3) with 3%Q. change (inject_Z 5) with 5%Q.
    change (inject_Z 10) with 10%Q in *. lra.
Qed.

Lemma trimmed_clips_skip_both_ends_witness :
  let E := mkEnv None (fun _ => Responds []) (fun _ => true) DirReady
                 (Some (17 # 1)) (fun _ => true) in
  let r := video_to_gifs_trimmed E (lit "out")
             (mkWorld 0 [] (fun _ => None) []) in
  fst r = Normal 3 /\ glob_N (final r) = 3.
Proof.
  cbv zeta.
  destruct (@trimmed_clips_skip_both_ends
              (mkEnv None (fun _ => Responds []) (fun _ => true) DirReady
                     (Some (17 # 1)) (fun _ => true))
              (lit "out") (mkWorld 0 [] (fun _ => None) []) (17 # 1)
              eq_refl eq_refl eq_refl) as [_ [H1 [H2 _]]].
  split; [exact H1 | exact H2].
Defined.

End SegmentFacts.

(** ** Further properties: tag generation and the pasted text *)

Module TagsMore.
Import PyStr PyStrFacts Py Tags TagsFacts Trace Dialog.

(** X8. Whenever the service responds, whatever the text (no tag, too few,
    too many, a wrong delimiter), [setup_gemini] returns [True] and leaves
    exactly 14 tags, none empty; it makes one generation request and
    touches neither [N] nor the disk. *)
Theorem setup_gemini_response_gives_14 (E : env) (title description : str)
    (hints : list str) (w : world) (text : str) :
  generate_content E (prompt_of title description hints) = Responds text ->
  let r := setup_gemini E title description hints w in
  fst r = Normal true
  /\ length (glob_TAGS (final r)) = 14
  /\ Forall (fun t => t <> []) (glob_TAGS (final r))
  /\ glob_N (final r) = glob_N w
  /\ (forall p, fs (final r) p = fs w p)
  /\ log (final r)
     = log w ++ [EvGenerate (prompt_of title description hints)].
Proof.
  intros Hr. cbv zeta. rewrite setup_gemini_run, Hr.
  unfold final. cbn [fst snd glob_N glob_TAGS fs log].
  pose proof (tags_after_reply_14 text) as [H1 H2]. auto 7.
Qed.

Lemma setup_gemini_response_gives_14_witness :
  let E := mkEnv None (fun _ => Responds (lit "alpha;beta"))
                 (fun _ => true) DirReady None (fun _ => true) in
  let r := setup_gemini E (lit "clip") [] []
             (mkWorld 0 [] (fun _ => None) []) in
  fst r = Normal true /\ length (glob_TAGS (final r)) = 14.
Proof.
  cbv zeta.
  destruct (@setup_gemini_response_gives_14
              (mkEnv None (fun _ => Responds (lit "alpha;beta"))
                     (fun _ => true) DirReady None (fun _ => true))
              (lit "clip") [] [] (mkWorld 0 [] (fun _ => None) [])
              (lit "alpha;beta") eq_refl) as [H1 [H2 _]].
  split; [exact H1 | exact H2].
Defined.

(** The padding loop only appends: the tags it starts from stay in front,
    in their order, and what it adds are defaults that were missing, each
    once. *)
Lemma pad_appends (ds T : list str) :
  NoDup ds ->
  exists added,
    fold_left pad_step ds T = T ++ added
    /\ incl added ds /\ NoDup added
    /\ (forall t, In t added -> ~ In t T).
Proof.
  revert T. induction ds as [|d ds IH]; intros T Hnd.
  - exists []. cbn. rewrite app_nil_r.
    repeat split; [intros x [] | constructor | intros t []].
  - inversion Hnd as [|? ? Hd Hnd']; subst. cbn [fold_left].
    unfold pad_step at 2.
    destruct (mem d T) eqn:Hm; cbn [negb andb].
    + destruct (IH T Hnd') as [added [E [Hi [Hn Hf]]]].
      exists added. repeat split; try assumption.
      intros x Hx. right. apply Hi. exact Hx.
    + destruct (length T <? 14).
      * destruct (IH (T ++ [d]) Hnd') as [added [E [Hi [Hn Hf]]]].
        exists (d :: added). rewrite E, <- app_assoc.
        repeat split.
        -- intros x [<-|Hx]; [left; reflexivity | right; apply Hi; exact Hx].
        -- constructor; [|exact Hn]. intros Hin. apply Hd, Hi, Hin.
        -- intros t [<-|Ht].
           ++ intros Hin. apply mem_In in Hin. congruence.
           ++ intros Hin. apply (Hf t Ht). apply in_or_app. left. exact Hin.
      * destruct (IH T Hnd') as [added [E [Hi [Hn Hf]]]].
        exists added. repeat split; try assumption.
        intros x Hx. right. apply Hi. exact Hx.
Qed.

(** X9. Order of the tags after a response: the tags read from the response
    come first, in the order of the response; when they are fewer than 14,
    defaults that are not among them follow, each at most once; when they
    are 14 or more, the first 14 are kept and no default is added. *)
Theorem generated_tags_come_first (E : env) (title description : str)
    (hints : list str) (w : world) (text : str) :
  generate_content E (prompt_of title description hints) = Responds text ->
  let generated := tags_of_response (strip text) in
  let TAGS := glob_TAGS (final (setup_gemini E title description hints w)) in
  (length generated < 14 ->
   exists added,
     TAGS = generated ++ added
     /\ incl added default_tags /\ NoDup added
     /\ (forall t, In t added -> ~ In t generated))
  /\ (14 <= length generated -> TAGS = firstn 14 generated).
Proof.
  intros Hr. cbv zeta. rewrite setup_gemini_run, Hr.
  unfold final. cbn [snd glob_TAGS]. unfold tags_after_reply.
  destruct (Nat.ltb_spec (length (tags_of_response (strip text))) 14);
    split; intros H'; try lia.
  - apply pad_appends, default_tags_NoDup.
  - reflexivity.
Qed.

Lemma generated_tags_come_first_witness :
  let E := mkEnv None (fun _ => Responds (lit "#cat, #gif"))
                 (fun _ => true) DirReady None (fun _ => true) in
  let TAGS := glob_TAGS (final (setup_gemini E (lit "clip") [] []
                                  (mkWorld 0 [] (fun _ => None) []))) in
  exists added, TAGS = [lit "#cat"; lit "#gif"] ++ added
                /\ ~ In (lit "#gif") added.
Proof.
  cbv zeta.
  destruct (@generated_tags_come_first
              (mkEnv None (fun _ => Responds (lit "#cat, #gif"))
                     (fun _ => true) DirReady None (fun _ => true))
              (lit "clip") [] [] (mkWorld 0 [] (fun _ => None) [])
              (lit "#cat, #gif") eq_refl) as [H _].
  destruct (H ltac:(vm_compute; lia)) as [added [E [_ [_ Hf]]]].
  exists added. split; [exact E|].
  intros Hin. apply (Hf _ Hin). right. left. reflexivity.
Defined.

(** *** Joining with a separator and splitting again *)

Lemma split_on_app_field (p : char -> bool) (t rest : str) (s : char) :
  Forall (fun c => p c = false) t -> p s = true ->
  split_on p (t ++ s :: rest) = t :: split_on p rest.
Proof.
  intros Ht Hs. induction Ht as [|c t Hc _ IH]; cbn [app split_on].
  - rewrite Hs. reflexivity.
  - rewrite Hc, IH. reflexivity.
Qed.

Lemma split_on_last_field (p : char -> bool) (t : str) :
  Forall (fun c => p c = false) t -> split_on p t = [t].
Proof.
  intros Ht. induction Ht as [|c t Hc _ IH]; cbn [split_on]; [reflexivity|].
  rewrite Hc, IH. reflexivity.
Qed.

(** [sep.join(xs).split(sep)] gives [xs] back when [xs] is not empty and
    no element holds the separator. *)
Lemma split_on_join (p : char -> bool) (s : char) (xs : list str) :
  xs <> [] -> p s = true ->
  Forall (Forall (fun c => p c = false)) xs ->
  split_on p (join [s] xs) = xs.
Proof.
  intros Hne Hs Hall. induction xs as [|x xs IH]; [congruence|].
  inversion Hall as [|? ? Hx Hxs]; subst.
  destruct xs as [|y ys].
  - cbn [join]. apply split_on_last_field. exact Hx.
  - change (join [s] (x :: y :: ys)) with (x ++ s :: join [s] (y :: ys)).
    rewrite split_on_app_field by assumption.
    rewrite IH by (discriminate || assumption). reflexivity.
Qed.

Lemma remove_char_absent (c : char) (s : str) : ~ In c (remove_char c s).
Proof.
  unfold remove_char. rewrite filter_In, negb_true_iff, N.eqb_neq. tauto.
Qed.

Lemma default_tags_no_space :
  Forall (Forall (fun c => (c =? 32)%N = false)) default_tags.
Proof.
  assert (G : forallb (forallb (fun c => negb (c =? 32)%N)) default_tags
              = true) by reflexivity.
  rewrite forallb_forall in G. apply Forall_forall. intros t Ht.
  specialize (G t Ht). rewrite forallb_forall in G.
  apply Forall_forall. intros c Hc. apply negb_true_iff. apply G. exact Hc.
Qed.

Lemma default_tags_hash :
  Forall (fun t => exists rest, t = 35%N :: rest) default_tags.
Proof. repeat constructor; eexists; reflexivity. Qed.

(** X10. After an exception of the service every tag in [TAGS] starts with
    [#] and holds no space, there is at least one, and the text
    [paste_tags_at_coordinates] pastes, the tags joined by single spaces,
    splits at the spaces into exactly [TAGS]. *)
Theorem fallback_tags_paste_cleanly (E : env) (title description : str)
    (hints : list str) (w : world) (e : exn) :
  generate_content E (prompt_of title description hints) = Fails e ->
  let TAGS := glob_TAGS (final (setup_gemini E title description hints w)) in
  TAGS <> []
  /\ Forall (fun t => exists rest, t = 35%N :: rest /\ ~ In 32%N rest) TAGS
  /\ split_on (fun c => (c =? 32)%N) (all_tags_string TAGS) = TAGS.
Proof.
  intros Hr. cbv zeta. rewrite setup_gemini_run, Hr.
  unfold final. cbn [snd glob_TAGS].
  assert (Hshape : Forall (fun t => exists rest,
                             t = 35%N :: rest /\ ~ In 32%N rest)
                          (tags_after_failure hints)).
  { destruct (tags_after_failure_shape hints) as [H0 H1].
    assert (Hd : Forall (fun t => exists rest,
                           t = 35%N :: rest /\ ~ In 32%N rest) default_tags).
    { pose proof default_tags_no_space as Hs.
      pose proof default_tags_hash as Hh.
      rewrite Forall_forall in *. intros t Ht.
      destruct (Hh t Ht) as [rest ->]. exists rest. split; [reflexivity|].
      intros Hin. specialize (Hs _ Ht). rewrite Forall_forall in Hs.
      specialize (Hs 32%N (or_intror Hin)). discriminate Hs. }
    destruct hints as [|h hs].
    - rewrite H0 by reflexivity. exact Hd.
    - destruct H1 as [rest [-> Hin]]; [discriminate|].
      apply Forall_app. split.
      + apply Forall_forall. intros t Ht. apply in_map_iff in Ht.
        destruct Ht as [x [<- _]]. exists (remove_char 32%N x).
        split; [reflexivity | apply remove_char_absent].
      + rewrite Forall_forall in *. intros t Ht. apply Hd, Hin, Ht. }
  assert (Hne : tags_after_failure hints <> []).
  { pose proof (tags_after_failure_length hints) as HL.
    destruct (tags_after_failure hints); [|discriminate].
    destruct hints; simpl in HL; lia. }
  split; [exact Hne|]. split; [exact Hshape|].
  unfold all_tags_string. change (lit " ") with [32%N].
  apply split_on_join; [exact Hne | reflexivity |].
  eapply Forall_impl; [|exact Hshape].
  intros t [rest [-> Hns]]. constructor; [reflexivity|].
  apply Forall_forall. intros c Hc. apply N.eqb_neq. congruence.
Qed.

Lemma fallback_tags_paste_cleanly_witness :
  let E := mkEnv None (fun _ => Fails (mkExn [])) (fun _ => true)
                 DirReady None (fun _ => true) in
  let TAGS := glob_TAGS (final (setup_gemini E (lit "clip") []
                                  [lit "funny cat"]
                                  (mkWorld 0 [] (fun _ => None) []))) in
  split_on (fun c => (c =? 32)%N) (all_tags_string TAGS) = TAGS
  /\ hd [] TAGS = lit "#funnycat".
Proof.
  cbv zeta. split; [|reflexivity].
  exact (proj2 (proj2
           (@fallback_tags_paste_cleanly
              (mkEnv None (fun _ => Fails (mkExn [])) (fun _ => true)
                     DirReady None (fun _ => true))
              (lit "clip") [] [lit "funny cat"]
              (mkWorld 0 [] (fun _ => None) []) (mkExn []) eq_refl))).
Defined.

End TagsMore.

(** ** Further properties: the file dialog and the session *)

Module SessionMore.
Import PyStr PyStrFacts Py Planner PlannerFacts Tags TagsFacts Session Trace
       SessionFacts Pipeline Dialog TagsMore.

Lemma string_of_uint_digits (d : Decimal.uint) :
  Forall (fun c => (48 <= c <= 57)%N) (lit (NilEmpty.string_of_uint d)).
Proof.
  induction d; cbn [NilEmpty.string_of_uint];
    [constructor | ..];
    (constructor; [vm_compute; split; discriminate | exact IHd]).
Qed.

Lemma quoted_name_no_space (i : nat) :
  Forall (fun c => (c =? 32)%N = false) (quoted_name i).
Proof.
  unfold quoted_name, artifact_name, of_nat.
  constructor; [reflexivity|].
  repeat (apply Forall_app; split).
  - repeat constructor.
  - eapply Forall_impl; [|apply string_of_uint_digits].
    intros c Hc. cbv beta in Hc. apply N.eqb_neq. lia.
  - repeat constructor.
  - repeat constructor.
Qed.

(** The text typed for a non-empty range names exactly its indices. *)
Lemma file_names_split (start end_file : nat) :
  start <= end_file ->
  split_on (fun c => (c =? 32)%N) (file_names start end_file)
  = map quoted_name (seq start (end_file + 1 - start)).
Proof.
  intros H. unfold file_names. change (lit " ") with [32%N].
  apply split_on_join.
  - destruct (end_file + 1 - start) eqn:E; [lia | discriminate].
  - reflexivity.
  - apply Forall_forall. intros t Ht. apply in_map_iff in Ht.
    destruct Ht as [i [<- _]]. apply quoted_name_no_space.
Qed.

(** X11. What the file dialog is asked for over a whole session, whatever the
    selections answer: the ranges handed to [open_files_batch_new] are the
    planned batches, the text typed for a batch splits at the spaces into
    the quoted names of its indices, and over all batches every artifact
    [output_1.gif .. output_N.gif] is named exactly once, in order. *)
Theorem session_names_every_artifact_once (bs : nat) (E : env)
    (title description : str) (hints : list str) (w : world) :
  1 <= bs ->
  let r := process_tenor_upload bs E title description hints w in
  let typed (b : batch) :=
    split_on (fun c => (c =? 32)%N) (file_names (b_start b) (b_end b)) in
  selected_ranges (log (final r))
  = selected_ranges (log w) ++ plan bs (glob_N w)
  /\ Forall (fun b => typed b = map quoted_name (indices b))
            (plan bs (glob_N w))
  /\ flat_map typed (plan bs (glob_N w))
     = map quoted_name (seq 1 (glob_N w)).
Proof.
  intros Hbs. cbv zeta.
  destruct (process_tenor_upload_run bs E title description hints w)
    as [tags ->].
  unfold final. cbn [snd log].
  assert (Hall : Forall (fun b => split_on (fun c => (c =? 32)%N)
                                    (file_names (b_start b) (b_end b))
                                  = map quoted_name (indices b))
                        (plan bs (glob_N w))).
  { unfold plan. apply Forall_forall. intros b Hb.
    apply in_map_iff in Hb. destruct Hb as [k [<- Hk]]. apply in_seq in Hk.
    apply file_names_split. cbn [b_start b_end batch_of].
    apply start_le_end; [assumption | lia]. }
  split; [|split; [exact Hall|]].
  - unfold selected_ranges. rewrite !flat_map_app.
    fold (selected_ranges (session_events bs E tags (glob_N w))).
    rewrite session_selects_plan. reflexivity.
  - rewrite <- (plan_cover (glob_N w) Hbs).
    induction Hall as [|b l Hb _ IH]; [reflexivity|].
    cbn [flat_map map concat]. rewrite Hb, IH, map_app. reflexivity.
Qed.

Lemma session_names_every_artifact_once_witness :
  let E := mkEnv None (fun _ => Responds []) (fun b => negb (b =? 0))
                 DirReady None (fun _ => true) in
  let r := process_tenor_upload 3 E (lit "clip") [] []
             (mkWorld 4 [] (fun _ => None) []) in
  1 <= 3
  /\ selected_ranges (log (final r)) = [mkBatch 0 1 3; mkBatch 1 4 4].
Proof.
  cbv zeta. split; [lia|].
  exact (proj1 (@session_names_every_artifact_once 3
                  (mkEnv None (fun _ => Responds [])
                         (fun b => negb (b =? 0)) DirReady None
                         (fun _ => true))
                  (lit "clip") [] [] (mkWorld 4 [] (fun _ => None) [])
                  ltac:(lia))).
Defined.

Lemma apply_tags_in_batch bs E T N B b tags' :
  In (EvApplyTags tags') (batch_events bs E T N B b) -> tags' = T.
Proof.
  unfold batch_events. intros H. apply in_app_or in H.
  destruct H as [H|H].
  - simpl in H. intuition discriminate.
  - destruct (select_files E b); [|destruct H].
    apply in_app_or in H. destruct H as [H|H].
    + simpl in H. destruct H as [H|[H|[]]]; [discriminate | congruence].
    + destruct (b <? B - 1); simpl in H; intuition discriminate.
Qed.

(** X12. The tag set is computed once and reused: the session leaves [N] and
    the disk as they are, its [TAGS] are those [setup_gemini] produced, and
    every [apply_tags] of every batch pastes that same list. *)
Theorem session_uses_one_tag_set (bs : nat) (E : env)
    (title description : str) (hints : list str) (w : world) :
  let r := process_tenor_upload bs E title description hints w in
  glob_N (final r) = glob_N w
  /\ (forall p, fs (final r) p = fs w p)
  /\ glob_TAGS (final r)
     = glob_TAGS (final (setup_gemini E title description hints w))
  /\ exists calls,
       log (final r) = log w ++ calls
       /\ forall tags', In (EvApplyTags tags') calls ->
                        tags' = glob_TAGS (final r).
Proof.
  cbv zeta. unfold process_tenor_upload, bind, navigate_to_tenor.
  rewrite setup_gemini_run.
  destruct (generate_content E (prompt_of title description hints));
    unfold emit, get_N; cbn [glob_N glob_TAGS fs log];
    rewrite upload_loop_run; unfold add_log, final;
    cbn [snd glob_N glob_TAGS fs log];
    (split; [reflexivity|]); (split; [reflexivity|]);
    (split; [reflexivity|]);
    eexists; (split; [rewrite <- !app_assoc; reflexivity|]);
    intros tags' Hin; cbn [app] in Hin;
    (destruct Hin as [Hin|[Hin|Hin]]; [discriminate | discriminate |]);
    unfold session_events in Hin; apply in_flat_map in Hin;
    destruct Hin as [b [_ Hin]]; apply apply_tags_in_batch in Hin; exact Hin.
Qed.

End SessionMore.

(** ** Further properties: the per-video driver and the main program *)

Module PipelineMore.
Import PyStr PyStrFacts Py Planner PlannerFacts Tags TagsFacts Session Trace
       SessionFacts Pipeline PipelineFacts Segment SegmentFacts Main.








(** *** The main program *)



End PipelineMore.

(** ** Further properties: URL extraction *)

Module UrlsMore.
Import PyStr PyStrFacts Urls UrlsFacts TagsMore.

Lemma findall_spec_pieces (us : list str) :
  forall s, findall_spec s us ->
            forall u, In u us -> exists pre post, s = pre ++ u ++ post.
Proof.
  induction us as [|u0 us IH]; intros s Hs u Hu; [destruct Hu|].
  cbn [findall_spec] in Hs.
  destruct Hs as [gap [rest [E [_ [_ [_ Hrest]]]]]].
  destruct Hu as [<-|Hu].
  - exists gap, rest. exact E.
  - destruct (IH rest Hrest u Hu) as [pre [post ->]].
    exists (gap ++ u0 ++ pre), post. rewrite E, <- !app_assoc. reflexivity.
Qed.

Lemma split_spec_pieces (p : char -> bool) (ts : list str) :
  forall s, split_spec p s ts ->
            forall t, In t ts -> exists pre post, s = pre ++ t ++ post.
Proof.
  induction ts as [|t0 ts IH]; intros s Hs t Ht; [destruct Ht|].
  cbn [split_spec] in Hs. destruct Hs as [_ Hs].
  destruct ts as [|t1 ts].
  - destruct Ht as [<-|[]]. exists [], []. rewrite app_nil_r. exact Hs.
  - destruct Hs as [run [rest [E [_ [_ [_ Hrest]]]]]].
    destruct Ht as [<-|Ht].
    + exists [], (run ++ rest). exact E.
    + destruct (IH rest Hrest t Ht) as [pre [post ->]].
      exists (t0 ++ run ++ pre), post. rewrite E, <- !app_assoc. reflexivity.
Qed.

Lemma url_match_no_separator (u : str) :
  url_match u -> Forall (fun c => is_sep c = false) u.
Proof.
  intros [body [_ [Hb [-> | ->]]]]; apply Forall_app; split;
    try exact Hb; repeat constructor.
Qed.

(** X16. Every string [extract_urls_from_input] returns is a piece of the
    input and holds neither white space nor a comma; nothing is invented
    and separators never end up inside a URL. *)
Theorem extracted_urls_are_clean_pieces (user_input : str) :
  Forall (fun u => (exists pre post, user_input = pre ++ u ++ post)
                   /\ Forall (fun c => is_sep c = false) u)
         (extract_urls_from_input user_input).
Proof.
  unfold extract_urls_from_input.
  pose proof (findall_urls_spec user_input) as Hspec.
  pose proof (findall_urls_match user_input) as Hall.
  destruct (findall_urls user_input) as [|u us] eqn:F; cbn [truthy].
  - rewrite strip_tokens. apply Forall_forall. intros t Ht.
    apply filter_In in Ht. destruct Ht as [Ht _]. split.
    + eapply split_spec_pieces; [apply split_runs_spec | exact Ht].
    + pose proof (split_runs_aux_tokens is_sep false user_input) as Htok.
      rewrite Forall_forall in Htok. apply Htok. exact Ht.
  - apply Forall_forall. intros x Hx. split.
    + eapply findall_spec_pieces; [exact Hspec | exact Hx].
    + rewrite Forall_forall in Hall. apply url_match_no_separator, Hall, Hx.
Qed.

(** *** Extraction of a joined list *)

Lemma takewhile_run (p : char -> bool) (body rest : str) :
  Forall (fun c => p c = true) body ->
  match rest with [] => True | c :: _ => p c = false end ->
  takewhile p (body ++ rest) = body
  /\ dropwhile p (body ++ rest) = rest.
Proof.
  intros Hb Hr. induction Hb as [|c body Hc _ IH]; cbn [app].
  - destruct rest as [|c rest]; [split; reflexivity|].
    simpl. rewrite Hr. split; reflexivity.
  - simpl. rewrite Hc. destruct IH as [-> ->]. split; reflexivity.
Qed.

Lemma match_tail_exact (scheme body rest : str) :
  body <> [] -> Forall (fun c => is_sep c = false) body ->
  at_boundary rest ->
  match_tail scheme (lit "://" ++ body ++ rest)
  = Some (scheme ++ lit "://" ++ body, rest).
Proof.
  intros Hne Hb Hr. unfold match_tail.
  assert (P : strip_prefix (lit "://") (lit "://" ++ body ++ rest)
              = Some (body ++ rest)) by (apply strip_prefix_app; reflexivity).
  rewrite P.
  destruct (@takewhile_run (fun c => negb (is_sep c)) body rest) as [T D].
  { eapply Forall_impl; [|exact Hb]. intros c Hc. cbv beta in Hc.
    rewrite Hc. reflexivity. }
  { destruct rest as [|c rest]; [exact I|]. cbn in Hr. rewrite Hr.
    reflexivity. }
  rewrite T, D. destruct body; [congruence | reflexivity].
Qed.

(** At the start of a full URL the pattern matches exactly that URL. *)
Lemma match_url_at_exact (u rest : str) :
  url_match u -> at_boundary rest -> match_url_at (u ++ rest) = Some (u, rest).
Proof.
  intros [body [Hne [Hb [-> | ->]]]] Hr; rewrite <- app_assoc;
    unfold match_url_at.
  - change (lit "http://" ++ body ++ rest)
      with (lit "http" ++ lit "://" ++ body ++ rest).
    assert (P : strip_prefix (lit "http")
                  (lit "http" ++ lit "://" ++ body ++ rest)
                = Some (lit "://" ++ body ++ rest))
      by (apply strip_prefix_app; reflexivity).
    rewrite P.
    change (match_tail (lit "http") (lit "://" ++ body ++ rest)
            = Some (lit "http://" ++ body, rest)).
    apply match_tail_exact; assumption.
  - change (lit "https://" ++ body ++ rest)
      with (lit "http" ++ 115%N :: lit "://" ++ body ++ rest).
    assert (P : strip_prefix (lit "http")
                  (lit "http" ++ 115%N :: lit "://" ++ body ++ rest)
                = Some (115%N :: lit "://" ++ body ++ rest))
      by (apply strip_prefix_app; reflexivity).
    rewrite P.
    rewrite (@match_tail_exact (lit "https") body rest) by assumption.
    reflexivity.
Qed.

Lemma findall_urls_at_url (u rest : str) :
  url_match u -> at_boundary rest ->
  findall_urls (u ++ rest) = u :: findall_urls rest.
Proof.
  intros Hu Hr. pose proof (@match_url_at_exact u rest Hu Hr) as Hm.
  destruct (u ++ rest) as [|c s] eqn:E.
  - apply url_match_nonempty in Hu. destruct u; [congruence | discriminate].
  - rewrite findall_urls_cons, Hm. reflexivity.
Qed.

Lemma findall_urls_skip (sep s : str) :
  Forall (fun c => is_sep c = true) sep ->
  findall_urls (sep ++ s) = findall_urls s.
Proof.
  intros Hs. induction Hs as [|c sep Hc _ IH]; [reflexivity|].
  cbn [app]. rewrite findall_urls_cons.
  assert (Hm : match_url_at (c :: sep ++ s) = None).
  { unfold match_url_at. cbn [strip_prefix lit map list_ascii_of_string].
    destruct (N.eqb_spec (N_of_ascii "h"%char) c) as [<-|_];
      [discriminate Hc | reflexivity]. }
  rewrite Hm. exact IH.
Qed.

Lemma findall_urls_joined (sep : str) (urls : list str) :
  sep <> [] -> Forall (fun c => is_sep c = true) sep ->
  Forall url_match urls ->
  findall_urls (join sep urls) = urls.
Proof.
  intros Hne Hs Hall. induction Hall as [|u urls Hu _ IH].
  - apply findall_urls_nil.
  - destruct urls as [|u2 urls].
    + cbn [join]. rewrite <- (app_nil_r u) at 1.
      rewrite findall_urls_at_url by (exact Hu || exact I).
      rewrite findall_urls_nil. reflexivity.
    + change (join sep (u :: u2 :: urls))
        with (u ++ sep ++ join sep (u2 :: urls)).
      rewrite findall_urls_at_url; [|exact Hu|].
      * rewrite findall_urls_skip by exact Hs. rewrite IH. reflexivity.
      * destruct sep as [|c sep]; [congruence|].
        inversion Hs; subst. assumption.
Qed.

(** X17. A line made of URLs joined by a separator (any non-empty run of
    commas and white space, such as a space or a comma and a space) is
    taken apart into exactly these URLs, in order, provided each of them
    has the form the pattern asks for. *)
Theorem extract_of_joined_urls (sep : str) (urls : list str) :
  sep <> [] -> Forall (fun c => is_sep c = true) sep ->
  Forall url_match urls ->
  extract_urls_from_input (join sep urls) = urls.
Proof.
  intros Hne Hs Hall. unfold extract_urls_from_input.
  rewrite findall_urls_joined by assumption.
  destruct urls as [|u urls]; [|reflexivity].
  cbn [truthy join]. reflexivity.
Qed.

Lemma extract_of_joined_urls_witness :
  extract_urls_from_input
    (join (lit ", ") [lit "https://a.b/c"; lit "http://d"])
  = [lit "https://a.b/c"; lit "http://d"].
Proof.
  apply (@extract_of_joined_urls (lit ", ")
           [lit "https://a.b/c"; lit "http://d"]).
  - discriminate.
  - repeat constructor.
  - repeat constructor.
    + exists (lit "a.b/c"). split; [discriminate|].
      split; [repeat constructor | right; reflexivity].
    + exists (lit "d"). split; [discriminate|].
      split; [repeat constructor | left; reflexivity].
Defined.

End UrlsMore.

(** ** Further properties: [sanitize_filename] *)

Module SanitizeMore.
Import PyStr PyStrFacts Sanitize SanitizeFacts.

Lemma collapse_spaces_aux_clean (b : bool) (s : str) :
  Forall (fun c => isspace c = false) s -> collapse_spaces_aux b s = s.
Proof.
  intros H. revert b. induction H as [|c s Hc _ IH]; intros b;
    cbn [collapse_spaces_aux]; [reflexivity|].
  rewrite Hc, IH. reflexivity.
Qed.

Lemma remove_char_clean (c : char) (s : str) :
  ~ In c s -> remove_char c s = s.
Proof.
  intros H. unfold remove_char. induction s as [|x s IH]; [reflexivity|].
  cbn [filter]. destruct (N.eqb_spec x c) as [->|Hx].
  - exfalso. apply H. left. reflexivity.
  - cbn [negb]. rewrite IH; [reflexivity|].
    intros Hin. apply H. right. exact Hin.
Qed.

Lemma remove_all_clean (cs s : str) :
  (forall c, In c cs -> ~ In c s) ->
  fold_left (fun name char => remove_char char name) cs s = s.
Proof.
  induction cs as [|c cs IH]; intros H; [reflexivity|].
  cbn [fold_left]. rewrite remove_char_clean by (apply H; left; reflexivity).
  apply IH. intros x Hx. apply H. right. exact Hx.
Qed.

Lemma dropwhile_keep (p : char -> bool) (s : str) :
  p (hd 0%N s) = false -> dropwhile p s = s.
Proof. destruct s as [|c s]; [reflexivity|]. simpl. intros ->. reflexivity. Qed.

Lemma hd_rev (s : str) : hd 0%N (rev s) = last s 0%N.
Proof.
  induction s as [|c s IH]; [reflexivity|].
  cbn [rev]. destruct s as [|c' s]; [reflexivity|].
  change (last (c :: c' :: s) 0%N) with (last (c' :: s) 0%N).
  rewrite <- IH. cbn [rev].
  destruct (rev s ++ [c']) eqn:E; [|reflexivity].
  destruct (rev s); discriminate E.
Qed.

(** A string whose first and last characters are outside the class is
    left as it is. *)
Lemma strip_by_keep (p : char -> bool) (s : str) :
  p (hd 0%N s) = false -> p (last s 0%N) = false -> strip_by p s = s.
Proof.
  intros Hh Hl. unfold strip_by. rewrite (dropwhile_keep p s Hh).
  rewrite dropwhile_keep by (rewrite hd_rev; exact Hl).
  apply rev_involutive.
Qed.

(** X18. A name that needs no cleaning is returned unchanged: not empty, at
    most 150 characters, no white space, none of the invalid characters,
    and neither a dot nor a hyphen at its first or last place. *)
Theorem sanitize_filename_keeps_clean_names (name : str) :
  name <> [] -> length name <= 150 ->
  Forall (fun c => isspace c = false) name ->
  (forall c, In c invalid_chars -> ~ In c name) ->
  in_chars (lit ".-") (hd 0%N name) = false ->
  in_chars (lit ".-") (last name 0%N) = false ->
  sanitize_filename name = name.
Proof.
  intros Hne Hlen Hws Hinv Hh Hl.
  assert (Hs : sanitized name = name).
  { unfold sanitized, collapse_spaces.
    rewrite collapse_spaces_aux_clean by exact Hws.
    unfold remove_invalid. rewrite remove_all_clean by exact Hinv.
    unfold limit_length.
    destruct (Nat.ltb_spec 150 (length name)); [lia|].
    unfold strip_edges, strip_chars, strip.
    assert (Hh0 : isspace (hd 0%N name) = false).
    { destruct name as [|c s]; [congruence|]. inversion Hws; assumption. }
    assert (Hl0 : isspace (last name 0%N) = false).
    { rewrite Forall_forall in Hws. apply Hws.
      destruct name as [|c s]; [congruence|].
      apply (@exists_last _ (c :: s)) in Hne. destruct Hne as [l' [a E]].
      rewrite E, last_last. apply in_or_app. right. left. reflexivity. }
    rewrite (strip_by_keep isspace name Hh0 Hl0).
    unfold in_chars in Hh, Hl. cbn [lit map list_ascii_of_string existsb] in Hh, Hl.
    apply orb_false_iff in Hh. destruct Hh as [Hh1 Hh2].
    apply orb_false_iff in Hh2. destruct Hh2 as [Hh2 _].
    apply orb_false_iff in Hl. destruct Hl as [Hl1 Hl2].
    apply orb_false_iff in Hl2. destruct Hl2 as [Hl2 _].
    rewrite (strip_by_keep (in_chars (lit ".")) name);
      [| unfold in_chars; cbn [lit map list_ascii_of_string existsb];
         rewrite ?Hh1, ?Hl1; reflexivity ..].
    apply strip_by_keep;
      unfold in_chars; cbn [lit map list_ascii_of_string existsb];
      rewrite ?Hh2, ?Hl2; reflexivity. }
  unfold sanitize_filename. rewrite Hs.
  destruct name; [congruence | reflexivity].
Qed.

Lemma sanitize_filename_keeps_clean_names_witness :
  sanitize_filename (lit "My_Video-2024.final") = lit "My_Video-2024.final".
Proof.
  apply sanitize_filename_keeps_clean_names.
  - discriminate.
  - vm_compute. lia.
  - apply Forall_forall. intros c Hc.
    assert (G : forallb (fun c => negb (isspace c))
                        (lit "My_Video-2024.final") = true) by reflexivity.
    rewrite forallb_forall in G. apply negb_true_iff, G, Hc.
  - intros c Hc Hin.
    assert (G : forallb (fun c => negb (in_chars invalid_chars c))
                        (lit "My_Video-2024.final") = true) by reflexivity.
    rewrite forallb_forall in G. specialize (G c Hin).
    apply negb_true_iff in G. unfold in_chars in G.
    assert (existsb (N.eqb c) invalid_chars = true); [|congruence].
    apply existsb_exists. exists c. split; [exact Hc | apply N.eqb_refl].
  - reflexivity.
  - reflexivity.
Defined.

(** *** What the stripping leaves at the ends *)

Lemma dropwhile_suffix (p : char -> bool) (s : str) :
  exists pre, s = pre ++ dropwhile p s.
Proof.
  induction s as [|c s [pre IH]]; [exists []; reflexivity|].
  simpl. destruct (p c).
  - exists (c :: pre). cbn [app]. f_equal. exact IH.
  - exists []. reflexivity.
Qed.

Lemma dropwhile_hd_false (p : char -> bool) (s : str) :
  dropwhile p s <> [] -> p (hd 0%N (dropwhile p s)) = false.
Proof.
  induction s as [|c s IH]; simpl; [congruence|].
  destruct (p c) eqn:Hc; [exact IH | intros _; exact Hc].
Qed.

Lemma last_app_nonempty (a b : str) :
  b <> [] -> last (a ++ b) 0%N = last b 0%N.
Proof.
  intros Hb. apply (@exists_last _ b) in Hb. destruct Hb as [b' [x ->]].
  rewrite app_assoc, !last_last. reflexivity.
Qed.

Lemma dropwhile_last (p : char -> bool) (s : str) :
  dropwhile p s <> [] -> last (dropwhile p s) 0%N = last s 0%N.
Proof.
  intros Hne. destruct (dropwhile_suffix p s) as [pre E].
  transitivity (last (pre ++ dropwhile p s) 0%N).
  - symmetry. apply last_app_nonempty. exact Hne.
  - rewrite <- E. reflexivity.
Qed.

(** After [strip_by p] neither end of a non-empty result is in the class. *)
Lemma strip_by_ends (p : char -> bool) (s : str) :
  strip_by p s <> [] ->
  p (hd 0%N (strip_by p s)) = false /\ p (last (strip_by p s) 0%N) = false.
Proof.
  unfold strip_by. set (t := dropwhile p s).
  set (u := dropwhile p (rev t)). intros Hne.
  assert (Hu : u <> []) by (intros E; apply Hne; rewrite E; reflexivity).
  split.
  - rewrite <- (rev_involutive u) at 1. rewrite hd_rev.
    rewrite rev_involutive. unfold u.
    rewrite dropwhile_last by exact Hu.
    rewrite <- hd_rev, rev_involutive.
    apply dropwhile_hd_false. intros Et. fold t in Et.
    apply Hu. unfold u. rewrite Et. reflexivity.
  - rewrite <- hd_rev, rev_involutive. apply dropwhile_hd_false. exact Hu.
Qed.

Lemma collapse_spaces_aux_chars (b : bool) (s : str) (c : char) :
  In c (collapse_spaces_aux b s) -> c = 32%N \/ In c s.
Proof.
  revert b. induction s as [|x s IH]; intros b; cbn [collapse_spaces_aux];
    [intros []|].
  destruct (isspace x).
  - destruct b.
    + intros H. destruct (IH _ H); [left | right; right]; assumption.
    + intros [<-|H]; [left; reflexivity|].
      destruct (IH _ H); [left | right; right]; assumption.
  - intros [<-|H]; [right; left; reflexivity|].
    destruct (IH _ H); [left | right; right]; assumption.
Qed.

(** X19. What [sanitize_filename] returns is either the default name or made
    of characters of the input, a run of white space counting as a plain
    space; in both cases it neither starts nor ends with a hyphen, the last
    character class stripped. *)
Theorem sanitize_filename_adds_nothing (name : str) :
  let r := sanitize_filename name in
  (r = default_name \/ Forall (fun c => c = 32%N \/ In c name) r)
  /\ hd 0%N r <> 45%N /\ last r 0%N <> 45%N.
Proof.
  cbv zeta. unfold sanitize_filename.
  destruct name as [|c0 name]; cbn [truthy negb].
  - split; [left; reflexivity | split; discriminate].
  - destruct (sanitized (c0 :: name)) as [|d s] eqn:Es; cbn [truthy negb].
    + split; [left; reflexivity | split; discriminate].
    + rewrite <- Es. split.
      * right. apply Forall_forall. intros c Hc.
        unfold sanitized in Hc.
        apply strip_edges_incl, limit_length_incl in Hc.
        unfold remove_invalid in Hc. apply remove_all_In in Hc.
        destruct Hc as [Hc _]. apply (collapse_spaces_aux_chars false).
        exact Hc.
      * assert (Hne : strip_by (in_chars (lit "-"))
                        (strip_chars (lit ".")
                           (strip (limit_length (remove_invalid
                              (collapse_spaces (c0 :: name)))))) <> []).
        { unfold sanitized, strip_edges, strip_chars in Es.
          unfold strip_chars. rewrite Es. discriminate. }
        destruct (strip_by_ends _ _ Hne) as [Hh Hl].
        unfold sanitized, strip_edges. unfold strip_chars in *.
        split; intros E.
        -- rewrite E in Hh. discriminate Hh.
        -- rewrite E in Hl. discriminate Hl.
Qed.

End SanitizeMore.

(** ** Further properties: response parsing, the first run, tenorgif.py *)

Module MoreFacts.
Import PyStr PyStrFacts Py Planner PlannerFacts Tags TagsFacts Session Trace
       SessionFacts Pipeline PipelineFacts Segment SegmentFacts Sanitize
       SanitizeFacts SanitizeMore.







(** X22. tenorgif.py: its [sanitize_filename] keeps the result within 100
    characters and free of the invalid characters, but it has no default
    name: a title made only of invalid characters gives the empty string. *)
Theorem tenorgif_sanitize_can_be_empty (name : str) :
  let r := TenorGif.sanitize_filename name in
  length r <= 100
  /\ (forall c, In c invalid_chars -> ~ In c r)
  /\ ((forall c, In c name -> In c invalid_chars) -> r = []).
Proof.
  cbv zeta. unfold TenorGif.sanitize_filename.
  set (clean := remove_invalid name).
  set (cut := if 100 <? length clean then firstn 100 clean else clean).
  assert (Hcut : length cut <= 100 /\ (forall c, In c cut -> In c clean)).
  { unfold cut. destruct (Nat.ltb_spec 100 (length clean)).
    - split; [apply firstn_le_length|].
      intros c Hc. rewrite <- (firstn_skipn 100 clean).
      apply in_or_app. left. exact Hc.
    - split; [assumption | tauto]. }
  destruct Hcut as [Hlen Hincl].
  split; [|split].
  - unfold strip_chars, strip.
    etransitivity; [apply strip_by_length|].
    etransitivity; [apply strip_by_length | exact Hlen].
  - intros c Hc Hin. unfold strip_chars, strip in Hin.
    do 2 apply strip_by_incl in Hin. apply Hincl in Hin.
    unfold clean, remove_invalid in Hin. apply remove_all_In in Hin. tauto.
  - intros Hall.
    assert (Hclean : clean = []).
    { destruct clean as [|c l] eqn:Ec; [reflexivity|]. exfalso.
      assert (Hin : In c clean) by (rewrite Ec; left; reflexivity).
      unfold clean, remove_invalid in Hin. apply remove_all_In in Hin.
      destruct Hin as [H1 H2]. apply H2, Hall, H1. }
    unfold cut. rewrite Hclean. reflexivity.
Qed.

End MoreFacts.
